(** * React update queues, lane propagation, event batching and host context

    A shallow embedding of
    - [packages/react-reconciler/src/ReactFiberConcurrentUpdates.old.js]
      (interleaved update queues and lane propagation),
    - [packages/react-dom/src/events/ReactDOMUpdateBatching.js]
      (the [batchedUpdates] wrapper),
    - the host-context module built on [ReactFiberStack.old]
      ([pushHostContext], [popHostContext], [requiredContext], ...),
    - [extractEvents] of the simple event plugin, and
    - [packages/react-reconciler/src/ReactHookEffectTags.js],
    together with the properties of these functions.

    Objects live in stores indexed by references (natural numbers); a JS
    reference always denotes an object, so a store is a total function and
    [null] is [None].  Part I holds the definitions, Part II the theorems. *)

From Stdlib Require Import ZArith Lia String.
From stdpp Require Import base functions numbers list sets.

Local Open Scope Z_scope.

(* ===================================================================== *)
(** * Part I: definitions *)
(* ===================================================================== *)

(** ** JS values shared by the modules *)

Module Js.

(** The bitwise operators of JS take the 32-bit two's complement reading of
    their operands and give back a signed 32-bit integer. *)
Definition toInt32 (z : Z) : Z := (z + 2 ^ 31) mod 2 ^ 32 - 2 ^ 31.

Definition isInt32 (z : Z) : Prop := - 2 ^ 31 <= z < 2 ^ 31.

(** [a | b] *)
Definition bitor (a b : Z) : Z := Z.lor (toInt32 a) (toInt32 b).

(** [a & b] *)
Definition bitand (a b : Z) : Z := Z.land (toInt32 a) (toInt32 b).

(** A thrown value. *)
Inductive Exn : Type :=
| Error (message : string).

(** How a call ends: it returns a value, or it throws. *)
Inductive Completion (A : Type) : Type :=
| Normal (v : A)
| Throw (e : Exn).

Arguments Normal {A} v.
Arguments Throw {A} e.

Definition isThrow {A} (c : Completion A) : bool :=
  match c with
  | Throw _ => true
  | Normal _ => false
  end.

End Js.

(** ** Lanes *)

Module Lanes.

(** Modelled from the spec: [mergeLanes] of [ReactFiberLane.old.js], which is
    not part of the sources at hand: [merge(a,b) = a|b]. *)
Definition mergeLanes (a b : Z) : Z := Js.bitor a b.

(** [set] holds every bit of [subset]. *)
Definition includesLanes (set subset : Z) : Prop := Z.land set subset = subset.

End Lanes.

(** ** ReactFiberConcurrentUpdates.old.js *)

Module ConcurrentUpdates.

Import Lanes.

Abbreviation FiberRef := nat.
Abbreviation UpdateRef := nat.
Abbreviation QueueRef := nat.
Abbreviation RootRef := nat.

(** Constants and build flags imported from modules that are not part of
    the sources at hand ([ReactFiberFlags], [ReactWorkTags], the [__DEV__]
    build switch). *)
Class Constants : Type := {
  __DEV__ : bool;
  NoFlags : Z;
  Placement : Z;
  Hydrating : Z;
  HostRoot : Z
}.

(** An update record; [next] links the circular list and is [null] until
    the record is enqueued. *)
Record Update : Type := mkUpdate {
  lane : Z;
  payload : Z;
  next : option UpdateRef
}.

(** A hook queue or the shared part of a class queue: both hold the tails
    of two circular lists. *)
Record Queue : Type := mkQueue {
  pending : option UpdateRef;
  interleaved : option UpdateRef
}.

Record Fiber : Type := mkFiber {
  tag : Z;
  stateNode : RootRef;
  lanes : Z;
  childLanes : Z;
  flags : Z;
  alternate : option FiberRef;
  return_ : option FiberRef
}.

(** The heap and the module variable [concurrentQueues].  [warnings] is the
    diagnostic sink; [stateNodeReads] records every read of a fiber's
    [stateNode] (the root container), in reverse order. *)
Record State : Type := mkState {
  fibers : FiberRef -> Fiber;
  updates : UpdateRef -> Update;
  queues : QueueRef -> Queue;
  concurrentQueues : option (list QueueRef);
  warnings : list FiberRef;
  stateNodeReads : list FiberRef
}.

(** *** Field assignments *)

Definition set_next (u : Update) (n : option UpdateRef) : Update :=
  mkUpdate (lane u) (payload u) n.

Definition set_pending (q : Queue) (p : option UpdateRef) : Queue :=
  mkQueue p (interleaved q).

Definition set_interleaved (q : Queue) (i : option UpdateRef) : Queue :=
  mkQueue (pending q) i.

Definition set_lanes (f : Fiber) (l : Z) : Fiber :=
  mkFiber (tag f) (stateNode f) l (childLanes f) (flags f) (alternate f)
    (return_ f).

Definition set_childLanes (f : Fiber) (l : Z) : Fiber :=
  mkFiber (tag f) (stateNode f) (lanes f) l (flags f) (alternate f)
    (return_ f).

(** [update.next = n] *)
Definition assign_next (s : State) (update : UpdateRef)
    (n : option UpdateRef) : State :=
  mkState (fibers s) (<[update := set_next (updates s update) n]> (updates s))
    (queues s) (concurrentQueues s) (warnings s) (stateNodeReads s).

(** [queue.pending = p] *)
Definition assign_pending (s : State) (queue : QueueRef)
    (p : option UpdateRef) : State :=
  mkState (fibers s) (updates s)
    (<[queue := set_pending (queues s queue) p]> (queues s))
    (concurrentQueues s) (warnings s) (stateNodeReads s).

(** [queue.interleaved = i] *)
Definition assign_interleaved (s : State) (queue : QueueRef)
    (i : option UpdateRef) : State :=
  mkState (fibers s) (updates s)
    (<[queue := set_interleaved (queues s queue) i]> (queues s))
    (concurrentQueues s) (warnings s) (stateNodeReads s).

(** [fiber.lanes = l] *)
Definition assign_lanes (s : State) (fiber : FiberRef) (l : Z) : State :=
  mkState (<[fiber := set_lanes (fibers s fiber) l]> (fibers s)) (updates s)
    (queues s) (concurrentQueues s) (warnings s) (stateNodeReads s).

(** [fiber.childLanes = l] *)
Definition assign_childLanes (s : State) (fiber : FiberRef) (l : Z) : State :=
  mkState (<[fiber := set_childLanes (fibers s fiber) l]> (fibers s))
    (updates s) (queues s) (concurrentQueues s) (warnings s)
    (stateNodeReads s).

(** [concurrentQueues = qs] *)
Definition assign_concurrentQueues (s : State)
    (qs : option (list QueueRef)) : State :=
  mkState (fibers s) (updates s) (queues s) qs (warnings s) (stateNodeReads s).

(** Modelled from the spec: [warnAboutUpdateOnNotYetMountedFiberInDEV] of
    [ReactFiberWorkLoop.old.js], which is not part of the sources at hand:
    a non-fatal warning handed to the diagnostic sink. *)
Definition warnAboutUpdateOnNotYetMountedFiberInDEV (s : State)
    (fiber : FiberRef) : State :=
  mkState (fibers s) (updates s) (queues s) (concurrentQueues s)
    (fiber :: warnings s) (stateNodeReads s).

(** Reading [node.stateNode]. *)
Definition read_stateNode (s : State) (node : FiberRef) : State * RootRef :=
  (mkState (fibers s) (updates s) (queues s) (concurrentQueues s)
     (warnings s) (node :: stateNodeReads s),
   stateNode (fibers s node)).

(** *** The functions of the module *)

Definition pushConcurrentUpdateQueue (s : State) (queue : QueueRef) : State :=
  match concurrentQueues s with
  | None => assign_concurrentQueues s (Some [queue])
  | Some qs => assign_concurrentQueues s (Some (qs ++ [queue]))
  end.

(** The body of the [for] loop of [finishQueueingConcurrentUpdates], for
    [queue = concurrentQueues[i]]. *)
Definition transferInterleaved (s : State) (queue : QueueRef) : State :=
  let lastInterleavedUpdate := interleaved (queues s queue) in
  match lastInterleavedUpdate with
  | Some lastI =>
      let s := assign_interleaved s queue None in
      let firstInterleavedUpdate := next (updates s lastI) in
      let lastPendingUpdate := pending (queues s queue) in
      let s :=
        match lastPendingUpdate with
        | Some lastP =>
            let firstPendingUpdate := next (updates s lastP) in
            let s := assign_next s lastP firstInterleavedUpdate in
            assign_next s lastI firstPendingUpdate
        | None => s
        end in
      assign_pending s queue (Some lastI)
  | None => s
  end.

(** The [for] loop over the registry; the loop does not change the array. *)
Fixpoint transferAll (qs : list QueueRef) (s : State) : State :=
  match qs with
  | [] => s
  | queue :: rest => transferAll rest (transferInterleaved s queue)
  end.

Definition finishQueueingConcurrentUpdates (s : State) : State :=
  match concurrentQueues s with
  | Some qs => assign_concurrentQueues (transferAll qs s) None
  | None => s
  end.

Definition enqueueConcurrentHookUpdateAndEagerlyBailout (s : State)
    (fiber : FiberRef) (queue : QueueRef) (update : UpdateRef) (lane : Z)
    : State :=
  let interleaved_ := interleaved (queues s queue) in
  let s :=
    match interleaved_ with
    | None =>
        let s := assign_next s update (Some update) in
        pushConcurrentUpdateQueue s queue
    | Some i =>
        let s := assign_next s update (next (updates s i)) in
        assign_next s i (Some update)
    end in
  assign_interleaved s queue (Some update).

(** [(fiber.flags & (Placement | Hydrating)) !== NoFlags] *)
Definition notYetMounted `{Constants} (s : State) (fiber : FiberRef) : bool :=
  negb (Js.bitand (flags (fibers s fiber)) (Js.bitor Placement Hydrating)
        =? NoFlags).

(** The body of the [while (parent !== null)] loop of
    [markUpdateLaneFromFiberToRoot]. *)
Definition markParent `{Constants} (s : State) (sourceFiber : FiberRef)
    (lane : Z) (parent : FiberRef) : State :=
  let s :=
    assign_childLanes s parent
      (mergeLanes (childLanes (fibers s parent)) lane) in
  let alternate_ := alternate (fibers s parent) in
  match alternate_ with
  | Some a =>
      assign_childLanes s a (mergeLanes (childLanes (fibers s a)) lane)
  | None =>
      if __DEV__ then
        if notYetMounted s parent
        then warnAboutUpdateOnNotYetMountedFiberInDEV s sourceFiber
        else s
      else s
  end.

(** The loop; the result is the state and the value of [node] when the
    loop ends, or [None] when [fuel] rounds did not reach the end of the
    path. *)
Fixpoint walkParentPath `{Constants} (fuel : nat) (s : State)
    (sourceFiber : FiberRef) (lane : Z) (node : FiberRef)
    (parent : option FiberRef) : option (State * FiberRef) :=
  match parent with
  | None => Some (s, node)
  | Some p =>
      match fuel with
      | O => None
      | S fuel' =>
          let s := markParent s sourceFiber lane p in
          walkParentPath fuel' s sourceFiber lane p (return_ (fibers s p))
      end
  end.

Definition markUpdateLaneFromFiberToRoot `{Constants} (fuel : nat) (s : State)
    (sourceFiber : FiberRef) (lane : Z) : option (State * option RootRef) :=
  let s :=
    assign_lanes s sourceFiber (mergeLanes (lanes (fibers s sourceFiber)) lane) in
  let alternate_ := alternate (fibers s sourceFiber) in
  let s :=
    match alternate_ with
    | Some a => assign_lanes s a (mergeLanes (lanes (fibers s a)) lane)
    | None => s
    end in
  let s :=
    if __DEV__ then
      match alternate_ with
      | None =>
          if notYetMounted s sourceFiber
          then warnAboutUpdateOnNotYetMountedFiberInDEV s sourceFiber
          else s
      | Some _ => s
      end
    else s in
  match walkParentPath fuel s sourceFiber lane sourceFiber
          (return_ (fibers s sourceFiber)) with
  | None => None
  | Some (s, node) =>
      if decide (tag (fibers s node) = HostRoot) then
        let '(s, root) := read_stateNode s node in
        Some (s, Some root)
      else Some (s, None)
  end.

Definition enqueueConcurrentHookUpdate `{Constants} (fuel : nat) (s : State)
    (fiber : FiberRef) (queue : QueueRef) (update : UpdateRef) (lane : Z)
    : option (State * option RootRef) :=
  let interleaved_ := interleaved (queues s queue) in
  let s :=
    match interleaved_ with
    | None =>
        let s := assign_next s update (Some update) in
        pushConcurrentUpdateQueue s queue
    | Some i =>
        let s := assign_next s update (next (updates s i)) in
        assign_next s i (Some update)
    end in
  let s := assign_interleaved s queue (Some update) in
  markUpdateLaneFromFiberToRoot fuel s fiber lane.

Definition enqueueConcurrentClassUpdate `{Constants} (fuel : nat) (s : State)
    (fiber : FiberRef) (queue : QueueRef) (update : UpdateRef) (lane : Z)
    : option (State * option RootRef) :=
  let interleaved_ := interleaved (queues s queue) in
  let s :=
    match interleaved_ with
    | None =>
        let s := assign_next s update (Some update) in
        pushConcurrentUpdateQueue s queue
    | Some i =>
        let s := assign_next s update (next (updates s i)) in
        assign_next s i (Some update)
    end in
  let s := assign_interleaved s queue (Some update) in
  markUpdateLaneFromFiberToRoot fuel s fiber lane.

Definition enqueueConcurrentRenderForLane `{Constants} (fuel : nat)
    (s : State) (fiber : FiberRef) (lane : Z)
    : option (State * option RootRef) :=
  markUpdateLaneFromFiberToRoot fuel s fiber lane.

(** *** Reading the heap: circular lists, registered queues, return paths *)

Definition nextOf (s : State) (u : UpdateRef) : option UpdateRef :=
  next (updates s u).

(** Each record of [l] points to the record after it, the last one to
    [stop]. *)
Fixpoint linked (s : State) (l : list UpdateRef) (stop : UpdateRef) : Prop :=
  match l with
  | [] => True
  | x :: rest => nextOf s x = Some (hd stop rest) /\ linked s rest stop
  end.

(** [tail] is the last record of a circular list whose records, from its
    first one ([tail.next]) to [tail], are [l]. *)
Definition circular (s : State) (tail : UpdateRef) (l : list UpdateRef)
    : Prop :=
  NoDup l /\ last l = Some tail /\ linked s l (hd tail l).

(** The records of the list a queue field points to; [null] is the empty
    list. *)
Definition holds (s : State) (field : option UpdateRef)
    (l : list UpdateRef) : Prop :=
  match field with
  | None => l = []
  | Some tail => circular s tail l
  end.

(** Following [next] from [cur] until [tail] is met, as a consumer of the
    list does. *)
Fixpoint readFrom (fuel : nat) (s : State) (cur tail : UpdateRef)
    : option (list UpdateRef) :=
  match fuel with
  | O => None
  | S fuel' =>
      if decide (cur = tail) then Some [cur]
      else
        match nextOf s cur with
        | Some n => cons cur <$> readFrom fuel' s n tail
        | None => None
        end
  end.

(** Reading a list head-to-tail, starting from [field.next]. *)
Definition readList (fuel : nat) (s : State) (field : option UpdateRef)
    : option (list UpdateRef) :=
  match field with
  | None => Some []
  | Some tail =>
      match nextOf s tail with
      | Some first => readFrom fuel s first tail
      | None => None
      end
  end.

(** [t] is one of the two tail pointers of [queue]. *)
Definition tailOf (s : State) (queue : QueueRef) (t : UpdateRef) : Prop :=
  pending (queues s queue) = Some t \/ interleaved (queues s queue) = Some t.

(** The queues of the registry. *)
Definition registered (s : State) : list QueueRef :=
  match concurrentQueues s with
  | Some qs => qs
  | None => []
  end.

(** No queue of [qs] other than [queue] points into the records [l]. *)
Definition separated (s : State) (qs : list QueueRef) (queue : QueueRef)
    (l : list UpdateRef) : Prop :=
  forall q', q' ∈ qs -> q' <> queue -> forall t, tailOf s q' t -> t ∉ l.

(** [path] lists the ancestors of [node], nearest first: the nodes reached
    by following [return] until it is [null]. *)
Fixpoint returnPath (s : State) (node : FiberRef) (path : list FiberRef)
    : Prop :=
  match path with
  | [] => return_ (fibers s node) = None
  | p :: rest => return_ (fibers s node) = Some p /\ returnPath s p rest
  end.

(** The last node reached from [node] along [path]. *)
Definition lastNode (node : FiberRef) (path : list FiberRef) : FiberRef :=
  List.last path node.

(** No alternate of a node among [nodes] is itself among [nodes]: the two
    trees are apart. *)
Definition mirrorsApart (s : State) (nodes : list FiberRef) : Prop :=
  forall x a, x ∈ nodes -> alternate (fibers s x) = Some a -> a ∉ nodes.

(** The two states hold the same update records, queues and registry. *)
Definition sameQueues (s s' : State) : Prop :=
  updates s' = updates s /\ queues s' = queues s /\
  concurrentQueues s' = concurrentQueues s.

(** The two states hold the same fibers. *)
Definition sameFibers (s s' : State) : Prop := fibers s' = fibers s.

(** Everything of a fiber but its two lane fields. *)
Definition shape (f : Fiber)
    : Z * RootRef * Z * option FiberRef * option FiberRef :=
  (tag f, stateNode f, flags f, alternate f, return_ f).

(** [v] is the result of merging [lane] into some lanes. *)
Definition merged (lane v : Z) : Prop := exists c, v = mergeLanes c lane.

(** What an enqueue of [update] on [queue] leaves in the side channel:
    the tail is the new record; on an empty side channel the record points
    to itself and the queue joins the registry; otherwise the old tail [i]
    points to the record and the record to what [i] pointed to. *)
Definition appended (s : State) (queue : QueueRef) (update : UpdateRef)
    (s' : State) : Prop :=
  interleaved (queues s' queue) = Some update /\
  match interleaved (queues s queue) with
  | None =>
      nextOf s' update = Some update /\
      concurrentQueues s' = Some (registered s ++ [queue])
  | Some i =>
      nextOf s' i = Some update /\
      (update <> i -> nextOf s' update = nextOf s i) /\
      concurrentQueues s' = concurrentQueues s
  end.

(** One side-channel append on [queue], through any of the three entry
    points. *)
Inductive appendStep `{Constants} (queue : QueueRef) (update : UpdateRef)
    : State -> State -> Prop :=
| append_hook fuel s fiber lane s' root :
    enqueueConcurrentHookUpdate fuel s fiber queue update lane
      = Some (s', root) ->
    appendStep queue update s s'
| append_class fuel s fiber lane s' root :
    enqueueConcurrentClassUpdate fuel s fiber queue update lane
      = Some (s', root) ->
    appendStep queue update s s'
| append_bailout s fiber lane :
    appendStep queue update s
      (enqueueConcurrentHookUpdateAndEagerlyBailout s fiber queue update lane).

(** A sequence of appends of the records [us], in this order. *)
Inductive appends `{Constants} (queue : QueueRef)
    : list UpdateRef -> State -> State -> Prop :=
| appends_nil s : appends queue [] s s
| appends_cons u us s s1 s2 :
    appendStep queue u s s1 ->
    appends queue us s1 s2 ->
    appends queue (u :: us) s s2.

End ConcurrentUpdates.

(** ** ReactDOMUpdateBatching.js *)

Module UpdateBatching.

Import Js.

(** An argument or a result of a callback. *)
Inductive Value : Type :=
| undefined
| Num (n : Z).

(** The module variable [isInsideEventHandler], the number of calls of
    [finishEventHandler] made so far, and the state of the collaborators
    (the renderer and the controlled components). *)
Record BatchState (Env : Type) : Type := mkBatchState {
  isInsideEventHandler : bool;
  finishEventHandlerCalls : nat;
  env : Env
}.

Arguments mkBatchState {Env} _ _ _.
Arguments isInsideEventHandler {Env} _.
Arguments finishEventHandlerCalls {Env} _.
Arguments env {Env} _.

(** A call: it ends with a completion and a new state. *)
Definition Call (Env A : Type) : Type :=
  BatchState Env -> Completion A * BatchState Env.

(** A callback [fn(a, b)]. *)
Definition Callback (Env : Type) : Type := Value -> Value -> Call Env Value.

(** The collaborators: [needsStateRestore] and [restoreStateIfNeeded] of
    [ReactDOMControlledComponent], which is not part of the sources at hand,
    and the implementations set through [setBatchingImplementation].  The
    renderer's calls act on its own state. *)
Class Collaborators (Env : Type) : Type := {
  needsStateRestore : Env -> bool;
  restoreStateIfNeeded : Env -> Completion unit * Env;
  batchedUpdatesImpl : Callback Env -> Value -> Value -> Call Env Value;
  flushSyncImpl : Env -> Completion unit * Env
}.

(** [isInsideEventHandler = b] *)
Definition assign_isInsideEventHandler {Env} (s : BatchState Env) (b : bool)
    : BatchState Env :=
  mkBatchState b (finishEventHandlerCalls s) (env s).

Definition assign_env {Env} (s : BatchState Env) (e : Env) : BatchState Env :=
  mkBatchState (isInsideEventHandler s) (finishEventHandlerCalls s) e.

Definition count_finishEventHandler {Env} (s : BatchState Env)
    : BatchState Env :=
  mkBatchState (isInsideEventHandler s) (S (finishEventHandlerCalls s)) (env s).

(** The defaults of the module:
    [function(fn, bookkeeping) { return fn(bookkeeping); }] and
    [function() {}]. *)
Definition default_batchedUpdatesImpl {Env} (fn : Callback Env)
    (bookkeeping : Value) (_ : Value) : Call Env Value :=
  fn bookkeeping undefined.

Definition default_flushSyncImpl {Env} (e : Env) : Completion unit * Env :=
  (Normal tt, e).

Definition finishEventHandler `{Collaborators Env} : Call Env unit :=
  fun s =>
    let s := count_finishEventHandler s in
    let controlledComponentsHavePendingUpdates := needsStateRestore (env s) in
    if controlledComponentsHavePendingUpdates then
      let '(r, e) := flushSyncImpl (env s) in
      match r with
      | Throw x => (Throw x, assign_env s e)
      | Normal _ =>
          let '(r, e) := restoreStateIfNeeded e in
          (r, assign_env s e)
      end
    else (Normal tt, s).

(** [try { return batchedUpdatesImpl(fn, a, b) } finally { ... }]: the
    completion of the [try] block stands unless the [finally] block
    throws. *)
Definition batchedUpdates `{Collaborators Env} (fn : Callback Env)
    (a b : Value) : Call Env Value :=
  fun s =>
    if isInsideEventHandler s then fn a b s
    else
      let s := assign_isInsideEventHandler s true in
      let '(r, s) := batchedUpdatesImpl fn a b s in
      let s := assign_isInsideEventHandler s false in
      let '(r', s) := finishEventHandler s in
      match r' with
      | Throw x => (Throw x, s)
      | Normal _ => (r, s)
      end.

(** Callbacks as client code can write them: code that acts on the
    collaborators, sequences, handlers, and calls of [batchedUpdates]. *)
Inductive Op (Env : Type) : Type :=
| Act (f : Value -> Value -> Env -> Completion Value * Env)
| Seq (first second : Op Env)
| TryCatch (body handler : Op Env)
| Batched (inner : Op Env) (a b : Value).

Arguments Act {Env} f.
Arguments Seq {Env} first second.
Arguments TryCatch {Env} body handler.
Arguments Batched {Env} inner a b.

Fixpoint run `{Collaborators Env} (op : Op Env) : Callback Env :=
  fun a b s =>
    match op with
    | Act f =>
        let '(r, e) := f a b (env s) in
        (r, assign_env s e)
    | Seq first second =>
        let '(r, s) := run first a b s in
        match r with
        | Normal _ => run second a b s
        | Throw x => (Throw x, s)
        end
    | TryCatch body handler =>
        let '(r, s) := run body a b s in
        match r with
        | Normal v => (Normal v, s)
        | Throw _ => run handler a b s
        end
    | Batched inner a' b' => batchedUpdates (run inner) a' b' s
    end.

(** A call made inside a batch leaves the flag set and runs no finalize
    step. *)
Definition staysInside {Env} (m : Call Env Value) : Prop :=
  forall s, isInsideEventHandler s = true ->
    isInsideEventHandler (snd (m s)) = true /\
    finishEventHandlerCalls (snd (m s)) = finishEventHandlerCalls s.

(** The batching implementation touches the flag and the finalize step
    only through the callback it is given. *)
Definition implKeepsBatch `{Collaborators Env} : Prop :=
  forall fn a b,
    (forall a' b', staysInside (fn a' b')) ->
    staysInside (batchedUpdatesImpl fn a b).

End UpdateBatching.

(** ** ReactDOMUpdateBatching.js, with collaborators that may call back *)

(** [flushSyncImpl] and [restoreStateIfNeeded] are renderer and
    controlled-component code: they may call [batchedUpdates] again.  Here
    they are calls on the whole state of the module; [UpdateBatching] is the
    case where they act on the collaborators' state alone
    ([ofCollaborators]). *)
Module ReentrantBatching.

Import Js.
Import UpdateBatching.

(** The collaborators, as calls. *)
Class Collaborators (Env : Type) : Type := {
  needsStateRestore : Env -> bool;
  restoreStateIfNeeded : Call Env unit;
  batchedUpdatesImpl : Callback Env -> Value -> Value -> Call Env Value;
  flushSyncImpl : Call Env unit
}.

Definition finishEventHandler `{Collaborators Env} : Call Env unit :=
  fun s =>
    let s := count_finishEventHandler s in
    let controlledComponentsHavePendingUpdates := needsStateRestore (env s) in
    if controlledComponentsHavePendingUpdates then
      let '(r, s) := flushSyncImpl s in
      match r with
      | Throw x => (Throw x, s)
      | Normal _ => restoreStateIfNeeded s
      end
    else (Normal tt, s).

(** [try { return batchedUpdatesImpl(fn, a, b) } finally { ... }]: the
    completion of the [try] block stands unless the [finally] block
    throws. *)
Definition batchedUpdates `{Collaborators Env} (fn : Callback Env)
    (a b : Value) : Call Env Value :=
  fun s =>
    if isInsideEventHandler s then fn a b s
    else
      let s := assign_isInsideEventHandler s true in
      let '(r, s) := batchedUpdatesImpl fn a b s in
      let s := assign_isInsideEventHandler s false in
      let '(r', s) := finishEventHandler s in
      match r' with
      | Throw x => (Throw x, s)
      | Normal _ => (r, s)
      end.

Fixpoint run `{Collaborators Env} (op : Op Env) : Callback Env :=
  fun a b s =>
    match op with
    | Act f =>
        let '(r, e) := f a b (env s) in
        (r, assign_env s e)
    | Seq first second =>
        let '(r, s) := run first a b s in
        match r with
        | Normal _ => run second a b s
        | Throw x => (Throw x, s)
        end
    | TryCatch body handler =>
        let '(r, s) := run body a b s in
        match r with
        | Normal v => (Normal v, s)
        | Throw _ => run handler a b s
        end
    | Batched inner a' b' => batchedUpdates (run inner) a' b' s
    end.

(** The batching implementation touches the flag and the finalize step
    only through the callback it is given. *)
Definition implKeepsBatch `{Collaborators Env} : Prop :=
  forall fn a b,
    (forall a' b', staysInside (fn a' b')) ->
    staysInside (batchedUpdatesImpl fn a b).

(** A call made outside a batch leaves the flag clear and runs no finalize
    step: it makes no [batchedUpdates] call of its own. *)
Definition staysOutside {Env} (m : Call Env unit) : Prop :=
  forall s, isInsideEventHandler s = false ->
    isInsideEventHandler (snd (m s)) = false /\
    finishEventHandlerCalls (snd (m s)) = finishEventHandlerCalls s.

(** Neither the flush nor the restore of the finalize step calls
    [batchedUpdates] again. *)
Definition finalizeDoesNotReenter `{Collaborators Env} : Prop :=
  staysOutside flushSyncImpl /\ staysOutside restoreStateIfNeeded.

(** Collaborators that act on their own state alone. *)
Definition ofCollaborators {Env} (C : UpdateBatching.Collaborators Env)
    : Collaborators Env :=
  {| needsStateRestore := UpdateBatching.needsStateRestore;
     restoreStateIfNeeded := fun s =>
       let '(r, e) := UpdateBatching.restoreStateIfNeeded (env s) in
       (r, assign_env s e);
     batchedUpdatesImpl := UpdateBatching.batchedUpdatesImpl;
     flushSyncImpl := fun s =>
       let '(r, e) := UpdateBatching.flushSyncImpl (env s) in
       (r, assign_env s e) |}.

End ReentrantBatching.

(** ** The host context module *)

Module HostContext.

Import Js.

Abbreviation FiberRef := nat.
Abbreviation Container := nat.
Abbreviation HostContext := nat.
Abbreviation ElementType := nat.

(** What a cursor can hold.  [NO_CONTEXT] is an object private to the
    module, so no context, fiber or container is equal to it. *)
Inductive Value : Type :=
| NO_CONTEXT
| HostContextV (c : HostContext)
| FiberV (f : FiberRef)
| ContainerV (c : Container).

Global Instance Value_eq_dec : EqDecision Value.
Proof. solve_decision. Defined.

(** The three cursors of the module. *)
Inductive Cursor : Type :=
| contextStackCursor
| contextFiberStackCursor
| rootInstanceStackCursor.

(** The [current] field of each cursor and the stack they share, the most
    recent entry first. *)
Record StackState : Type := mkStackState {
  contextStack : Value;
  contextFiberStack : Value;
  rootInstanceStack : Value;
  valueStack : list (FiberRef * Value)
}.

(** [cursor.current] *)
Definition current (cursor : Cursor) (s : StackState) : Value :=
  match cursor with
  | contextStackCursor => contextStack s
  | contextFiberStackCursor => contextFiberStack s
  | rootInstanceStackCursor => rootInstanceStack s
  end.

(** [cursor.current = v] *)
Definition assign_current (cursor : Cursor) (v : Value) (s : StackState)
    : StackState :=
  match cursor with
  | contextStackCursor =>
      mkStackState v (contextFiberStack s) (rootInstanceStack s) (valueStack s)
  | contextFiberStackCursor =>
      mkStackState (contextStack s) v (rootInstanceStack s) (valueStack s)
  | rootInstanceStackCursor =>
      mkStackState (contextStack s) (contextFiberStack s) v (valueStack s)
  end.

Definition assign_valueStack (st : list (FiberRef * Value)) (s : StackState)
    : StackState :=
  mkStackState (contextStack s) (contextFiberStack s) (rootInstanceStack s) st.

(** Modelled from the spec: [createCursor], [push] and [pop] of
    [ReactFiberStack.old.js], which is not part of the sources at hand.
    [push(cursor, value, node)] records [(node, previousValue)] and sets
    [cursor.current = value]; [pop(cursor, node)] restores the value recorded
    by the most recent push (LIFO).  A pop on the empty stack changes
    nothing. *)
Definition push (cursor : Cursor) (value : Value) (fiber : FiberRef)
    (s : StackState) : StackState :=
  assign_current cursor value
    (assign_valueStack ((fiber, current cursor s) :: valueStack s) s).

Definition pop (cursor : Cursor) (fiber : FiberRef) (s : StackState)
    : StackState :=
  match valueStack s with
  | [] => s
  | (_, previous) :: rest =>
      assign_current cursor previous (assign_valueStack rest s)
  end.

(** The three cursors as [createCursor(NO_CONTEXT)] makes them. *)
Definition initialState : StackState :=
  mkStackState NO_CONTEXT NO_CONTEXT NO_CONTEXT [].

(** The host configuration ([ReactFiberHostConfig], supplied by the
    renderer) and the [type] field of fibers.  [getRootHostContext] is
    renderer code that may throw. *)
Class HostConfig : Type := {
  getRootHostContext : Container -> Completion HostContext;
  getChildHostContext : Value -> ElementType -> Value -> HostContext;
  type_ : FiberRef -> ElementType
}.

Definition noContextError : Exn :=
  Error
    "Expected host context to exist. This error is likely caused by a bug in React. Please file an issue."%string.

Definition requiredContext (c : Value) : Completion Value :=
  match c with
  | NO_CONTEXT => Throw noContextError
  | _ => Normal c
  end.

Definition getRootHostContainer (s : StackState) : Completion Value :=
  let rootInstance := requiredContext (current rootInstanceStackCursor s) in
  rootInstance.

Definition pushHostContainer `{HostConfig} (fiber : FiberRef)
    (nextRootInstance : Container) (s : StackState)
    : Completion unit * StackState :=
  let s := push rootInstanceStackCursor (ContainerV nextRootInstance) fiber s in
  let s := push contextFiberStackCursor (FiberV fiber) fiber s in
  let s := push contextStackCursor NO_CONTEXT fiber s in
  match getRootHostContext nextRootInstance with
  | Throw e => (Throw e, s)
  | Normal nextRootContext =>
      let s := pop contextStackCursor fiber s in
      let s := push contextStackCursor (HostContextV nextRootContext) fiber s in
      (Normal tt, s)
  end.

Definition popHostContainer (fiber : FiberRef) (s : StackState) : StackState :=
  let s := pop contextStackCursor fiber s in
  let s := pop contextFiberStackCursor fiber s in
  pop rootInstanceStackCursor fiber s.

Definition getHostContext (s : StackState) : Completion Value :=
  let context := requiredContext (current contextStackCursor s) in
  context.

Definition pushHostContext `{HostConfig} (fiber : FiberRef) (s : StackState)
    : Completion unit * StackState :=
  match requiredContext (current rootInstanceStackCursor s) with
  | Throw e => (Throw e, s)
  | Normal rootInstance =>
      match requiredContext (current contextStackCursor s) with
      | Throw e => (Throw e, s)
      | Normal context =>
          let nextContext :=
            getChildHostContext context (type_ fiber) rootInstance in
          if decide (context = HostContextV nextContext) then (Normal tt, s)
          else
            let s := push contextFiberStackCursor (FiberV fiber) fiber s in
            let s := push contextStackCursor (HostContextV nextContext) fiber s in
            (Normal tt, s)
      end
  end.

Definition popHostContext (fiber : FiberRef) (s : StackState) : StackState :=
  if decide (current contextFiberStackCursor s = FiberV fiber) then
    let s := pop contextStackCursor fiber s in
    pop contextFiberStackCursor fiber s
  else s.

End HostContext.

(** ** Concrete states *)

Module Examples.

Import Js Lanes.

(** *** Update queues and a two-node tree *)

Import ConcurrentUpdates.

(** The values of the React 18 sources, in a development build. *)
Definition reactConstants : Constants :=
  {| __DEV__ := true; NoFlags := 0; Placement := 2; Hydrating := 4096;
     HostRoot := 3 |}.

Definition blankUpdate : Update := mkUpdate 0 0 None.
Definition blankQueue : Queue := mkQueue None None.
Definition detachedFiber : Fiber := mkFiber 0 0 0 0 0 None None.

(** Fiber 1 (the child) returns to fiber 2 (the parent), a host root whose
    root container is 9. *)
Definition treeFibers : FiberRef -> Fiber :=
  <[1%nat := mkFiber 0 0 0 0 0 None (Some 2%nat)]>
    (<[2%nat := mkFiber 3 9%nat 0 0 0 None None]> (fun _ => detachedFiber)).

(** Queue 0 holds the record 1 in its pending list; the records 2 and 3
    are not enqueued yet. *)
Definition pendingState : State :=
  mkState treeFibers
    (<[1%nat := mkUpdate 1 0 (Some 1%nat)]> (fun _ => blankUpdate))
    (<[0%nat := mkQueue (Some 1%nat) None]> (fun _ => blankQueue))
    None [] [].

(** Queue 0 holds the record 1 (called [A], with [A.next = A]) in its side
    channel and is registered. *)
Definition sideState : State :=
  mkState treeFibers
    (<[1%nat := mkUpdate 1 0 (Some 1%nat)]> (fun _ => blankUpdate))
    (<[0%nat := mkQueue None (Some 1%nat)]> (fun _ => blankQueue))
    (Some [0%nat]) [] [].

(** The record 2 appended to the side channel of queue 0 of
    [pendingState]. *)
Definition appendedState : State :=
  enqueueConcurrentHookUpdateAndEagerlyBailout pendingState 1%nat 0%nat 2%nat 1.

(** [appendedState] after the merge step. *)
Definition mergedState : State := finishQueueingConcurrentUpdates appendedState.

(** *** Batching *)

(** Collaborators whose state is a count of controlled components waiting
    for a restore; the implementations are the defaults of the module. *)
Definition defaultCollaborators : UpdateBatching.Collaborators nat :=
  {| UpdateBatching.needsStateRestore := fun e => (0 <? e)%nat;
     UpdateBatching.restoreStateIfNeeded := fun _ => (Normal tt, 0%nat);
     UpdateBatching.batchedUpdatesImpl :=
       UpdateBatching.default_batchedUpdatesImpl;
     UpdateBatching.flushSyncImpl := UpdateBatching.default_flushSyncImpl |}.

(** An operation that makes a nested [batchedUpdates] call and then
    throws. *)
Definition throwingOp : UpdateBatching.Op nat :=
  UpdateBatching.Seq
    (UpdateBatching.Batched
       (UpdateBatching.Act
          (fun _ _ e => (Normal UpdateBatching.undefined, S e)))
       UpdateBatching.undefined UpdateBatching.undefined)
    (UpdateBatching.Act (fun _ _ e => (Throw (Error "boom"%string), e))).

Definition idleBatchState : UpdateBatching.BatchState nat :=
  UpdateBatching.mkBatchState false 0%nat 0%nat.

(** The same collaborators as calls on the state of the module. *)
Definition defaultReentrant : ReentrantBatching.Collaborators nat :=
  ReentrantBatching.ofCollaborators defaultCollaborators.

(** *** Host context *)

(** A host whose every node has the context 0: a child context is always
    equal to its parent's. *)
Definition constConfig : HostContext.HostConfig :=
  {| HostContext.getRootHostContext := fun _ => Normal 0%nat;
     HostContext.getChildHostContext := fun _ _ _ => 0%nat;
     HostContext.type_ := fun _ => 0%nat |}.

(** The stack after [pushHostContainer] for fiber 1 and container 7. *)
Definition rootPushed : HostContext.StackState :=
  snd (@HostContext.pushHostContainer constConfig 1%nat 7%nat
         HostContext.initialState).

End Examples.

(** ** Calls of the concurrent-updates module, one after another *)

Module UpdateCalls.

Import Lanes ConcurrentUpdates.

(** [unsafe_markUpdateLaneFromFiberToRoot] is another name of
    [markUpdateLaneFromFiberToRoot]. *)
Definition unsafe_markUpdateLaneFromFiberToRoot `{Constants} (fuel : nat)
    (s : State) (sourceFiber : FiberRef) (lane : Z)
    : option (State * option RootRef) :=
  markUpdateLaneFromFiberToRoot fuel s sourceFiber lane.

(** Every queue whose side channel is not empty is in the registry. *)
Definition registryCovers (s : State) : Prop :=
  forall q, interleaved (queues s q) <> None -> q ∈ registered s.

(** One call of an exported function that returns. *)
Inductive call `{Constants} : State -> State -> Prop :=
| call_push s queue :
    call s (pushConcurrentUpdateQueue s queue)
| call_finish s :
    call s (finishQueueingConcurrentUpdates s)
| call_hook fuel s fiber queue update lane s' root :
    enqueueConcurrentHookUpdate fuel s fiber queue update lane
      = Some (s', root) ->
    call s s'
| call_bailout s fiber queue update lane :
    call s
      (enqueueConcurrentHookUpdateAndEagerlyBailout s fiber queue update lane)
| call_class fuel s fiber queue update lane s' root :
    enqueueConcurrentClassUpdate fuel s fiber queue update lane
      = Some (s', root) ->
    call s s'
| call_render fuel s fiber lane s' root :
    enqueueConcurrentRenderForLane fuel s fiber lane = Some (s', root) ->
    call s s'
| call_unsafe fuel s fiber lane s' root :
    unsafe_markUpdateLaneFromFiberToRoot fuel s fiber lane = Some (s', root) ->
    call s s'.

Inductive calls `{Constants} : State -> State -> Prop :=
| calls_nil s : calls s s
| calls_cons s s1 s2 : call s s1 -> calls s1 s2 -> calls s s2.

(** A lanes field after some merges of [lane] into [old]. *)
Definition grown (lane old v : Z) : Prop :=
  v = old \/ v = mergeLanes old lane.

(** The node has no alternate and carries a [Placement] or [Hydrating]
    flag: the condition of the warning. *)
Definition unmounted `{Constants} (s : State) (node : FiberRef) : bool :=
  bool_decide (alternate (fibers s node) = None) && notYetMounted s node.

(** How many warnings a propagation from [sourceFiber] along [path]
    emits. *)
Definition warningCount `{Constants} (s : State) (sourceFiber : FiberRef)
    (path : list FiberRef) : nat :=
  if __DEV__ then length (filter (fun x => unmounted s x = true)
                            (sourceFiber :: path))
  else O.

(** The node reached from [node] after [n] steps along [return], if the
    path is that long. *)
Fixpoint ancestor (s : State) (n : nat) (node : FiberRef)
    : option FiberRef :=
  match n with
  | O => Some node
  | S n' =>
      match return_ (fibers s node) with
      | Some p => ancestor s n' p
      | None => None
      end
  end.

(** Following [return] from [node] never ends. *)
Definition returnCycle (s : State) (node : FiberRef) : Prop :=
  forall n, is_Some (ancestor s n node).

End UpdateCalls.

(** ** Host context along a traversal path *)

Module HostContextPaths.

Import Js HostContext.

(** [pushHostContext] for the fibers of a path, the outermost first, each
    push tried whether or not the one before it threw. *)
Fixpoint pushPath `{HostConfig} (path : list FiberRef) (s : StackState)
    : StackState :=
  match path with
  | [] => s
  | fiber :: rest => pushPath rest (snd (pushHostContext fiber s))
  end.

(** [popHostContext] for the fibers of a path, the innermost first. *)
Fixpoint popPath (path : list FiberRef) (s : StackState) : StackState :=
  match path with
  | [] => s
  | fiber :: rest => popHostContext fiber (popPath rest s)
  end.

End HostContextPaths.

(** ** The simple event plugin ([extractEvents]) *)

Module SimpleEventPlugin.

Import Js.

Local Open Scope string_scope.

Abbreviation DOMEventName := string.
Abbreviation FiberRef := nat.
Abbreviation EventTarget := nat.
Abbreviation Listener := nat.

(** What [extractEvents] reads of a native event: its [type], its
    [button] ([None] when the event has none) and its identity. *)
Record NativeEvent : Type := mkNativeEvent {
  type_ : string;
  button : option Z;
  nativeId : nat
}.

(** The synthetic event classes of [SyntheticEvent.js]. *)
Inductive SyntheticEventCtor : Type :=
| SyntheticEvent
| SyntheticKeyboardEvent
| SyntheticFocusEvent
| SyntheticMouseEvent
| SyntheticDragEvent
| SyntheticTouchEvent
| SyntheticAnimationEvent
| SyntheticTransitionEvent
| SyntheticUIEvent
| SyntheticWheelEvent
| SyntheticClipboardEvent
| SyntheticPointerEvent.

(** [new SyntheticEventCtor(reactName, reactEventType, targetInst,
    nativeEvent, nativeEventTarget)] *)
Record SyntheticEventObject : Type := mkSyntheticEvent {
  ctor : SyntheticEventCtor;
  reactName : string;
  reactEventType : string;
  targetInst : option FiberRef;
  nativeEvent : NativeEvent;
  nativeEventTarget : option EventTarget
}.

(** An entry [{event, listeners}] of the dispatch queue. *)
Record DispatchEntry : Type := mkDispatchEntry {
  event : SyntheticEventObject;
  listeners : list Listener
}.

(** What the plugin imports from modules that are not part of the sources
    at hand: the table of React names, [getEventCharCode], the vendor-prefixed
    event names, the event-system flags, the feature flag and the two
    functions that collect listeners. *)
Class PluginEnv : Type := {
  topLevelEventsToReactNames : DOMEventName -> option string;
  getEventCharCode : NativeEvent -> Z;
  ANIMATION_END : DOMEventName;
  ANIMATION_ITERATION : DOMEventName;
  ANIMATION_START : DOMEventName;
  TRANSITION_END : DOMEventName;
  IS_CAPTURE_PHASE : Z;
  IS_EVENT_HANDLE_NON_MANAGED_NODE : Z;
  enableCreateEventHandleAPI : bool;
  accumulateSinglePhaseListeners :
    option FiberRef -> string -> string -> bool -> bool -> NativeEvent ->
    list Listener;
  accumulateEventHandleNonManagedNodeListeners :
    DOMEventName -> EventTarget -> bool -> list Listener
}.

(** [domEventName] is the label of one of the [case]s. *)
Definition oneOf (domEventName : DOMEventName) (cases : list DOMEventName)
    : bool :=
  existsb (String.eqb domEventName) cases.

(** The [switch (domEventName)]: the constructor and the React event type
    it chooses, or [None] where it returns from [extractEvents]. *)
Definition chooseConstructor `{PluginEnv} (domEventName : DOMEventName)
    (nativeEvent : NativeEvent) : option (SyntheticEventCtor * string) :=
  let reactEventType := domEventName in
  if oneOf domEventName ["keypress"] then
    if Z.eqb (getEventCharCode nativeEvent) 0 then None
    else Some (SyntheticKeyboardEvent, reactEventType)
  else if oneOf domEventName ["keydown"; "keyup"] then
    Some (SyntheticKeyboardEvent, reactEventType)
  else if oneOf domEventName ["focusin"] then
    Some (SyntheticFocusEvent, "focus")
  else if oneOf domEventName ["focusout"] then
    Some (SyntheticFocusEvent, "blur")
  else if oneOf domEventName ["beforeblur"; "afterblur"] then
    Some (SyntheticFocusEvent, reactEventType)
  else if oneOf domEventName ["click"] then
    if bool_decide (button nativeEvent = Some 2) then None
    else Some (SyntheticMouseEvent, reactEventType)
  else if oneOf domEventName
            ["auxclick"; "dblclick"; "mousedown"; "mousemove"; "mouseup";
             "mouseout"; "mouseover"; "contextmenu"] then
    Some (SyntheticMouseEvent, reactEventType)
  else if oneOf domEventName
            ["drag"; "dragend"; "dragenter"; "dragexit"; "dragleave";
             "dragover"; "dragstart"; "drop"] then
    Some (SyntheticDragEvent, reactEventType)
  else if oneOf domEventName
            ["touchcancel"; "touchend"; "touchmove"; "touchstart"] then
    Some (SyntheticTouchEvent, reactEventType)
  else if oneOf domEventName
            [ANIMATION_END; ANIMATION_ITERATION; ANIMATION_START] then
    Some (SyntheticAnimationEvent, reactEventType)
  else if oneOf domEventName [TRANSITION_END] then
    Some (SyntheticTransitionEvent, reactEventType)
  else if oneOf domEventName ["scroll"] then
    Some (SyntheticUIEvent, reactEventType)
  else if oneOf domEventName ["wheel"] then
    Some (SyntheticWheelEvent, reactEventType)
  else if oneOf domEventName ["copy"; "cut"; "paste"] then
    Some (SyntheticClipboardEvent, reactEventType)
  else if oneOf domEventName
            ["gotpointercapture"; "lostpointercapture"; "pointercancel";
             "pointerdown"; "pointermove"; "pointerout"; "pointerover";
             "pointerup"] then
    Some (SyntheticPointerEvent, reactEventType)
  else Some (SyntheticEvent, reactEventType).

(** [(eventSystemFlags & flag) !== 0], also the truth value of
    [eventSystemFlags & flag]. *)
Definition hasFlag (eventSystemFlags flag : Z) : bool :=
  negb (Z.eqb (Js.bitand eventSystemFlags flag) 0).

(** [extractEvents]; the result is the dispatch queue after the call. *)
Definition extractEvents `{PluginEnv} (dispatchQueue : list DispatchEntry)
    (domEventName : DOMEventName) (targetInst : option FiberRef)
    (nativeEvent : NativeEvent) (nativeEventTarget : option EventTarget)
    (eventSystemFlags : Z) (targetContainer : EventTarget)
    : list DispatchEntry :=
  match topLevelEventsToReactNames domEventName with
  | None => dispatchQueue
  | Some reactName =>
      match chooseConstructor domEventName nativeEvent with
      | None => dispatchQueue
      | Some (SyntheticEventCtor, reactEventType) =>
          let inCapturePhase := hasFlag eventSystemFlags IS_CAPTURE_PHASE in
          if enableCreateEventHandleAPI &&
             hasFlag eventSystemFlags IS_EVENT_HANDLE_NON_MANAGED_NODE
          then
            let listeners :=
              accumulateEventHandleNonManagedNodeListeners reactEventType
                targetContainer inCapturePhase in
            if (0 <? length listeners)%nat then
              let event :=
                mkSyntheticEvent SyntheticEventCtor reactName reactEventType
                  None nativeEvent nativeEventTarget in
              (dispatchQueue ++ [mkDispatchEntry event listeners])%list
            else dispatchQueue
          else
            let accumulateTargetOnly :=
              negb inCapturePhase && String.eqb domEventName "scroll" in
            let listeners :=
              accumulateSinglePhaseListeners targetInst reactName
                (type_ nativeEvent) inCapturePhase accumulateTargetOnly
                nativeEvent in
            if (0 <? length listeners)%nat then
              let event :=
                mkSyntheticEvent SyntheticEventCtor reactName reactEventType
                  None nativeEvent nativeEventTarget in
              (dispatchQueue ++ [mkDispatchEntry event listeners])%list
            else dispatchQueue
      end
  end.

(** The React event type of a DOM event: [focusin] and [focusout] are
    renamed, every other event keeps its name. *)
Definition renamed (domEventName : DOMEventName) : string :=
  if String.eqb domEventName "focusin" then "focus"
  else if String.eqb domEventName "focusout" then "blur"
  else domEventName.

End SimpleEventPlugin.

(** ** ReactHookEffectTags.js *)

Module HookEffectTags.

(** [0b0000], [0b0001], [0b0010], [0b0100] and [0b1000]. *)
Definition NoFlags : Z := 0.
Definition HasEffect : Z := 1.
Definition Insertion : Z := 2.
Definition Layout : Z := 4.
Definition Passive : Z := 8.

(** The flags a hook effect tag is made of. *)
Definition hookFlags : list Z := [HasEffect; Insertion; Layout; Passive].

(** [f1 | f2 | ... ], starting from [NoFlags]. *)
Definition combine (flags : list Z) : Z := foldr Js.bitor NoFlags flags.

End HookEffectTags.

(** ** More concrete states *)

Module MoreExamples.

Import Js Lanes ConcurrentUpdates Examples.

(** Every fiber returns to fiber 0, fiber 0 to itself. *)
Definition cycleState : State :=
  mkState (fun _ => mkFiber 0 0 0 0 0 None (Some 0%nat))
    (fun _ => blankUpdate) (fun _ => blankQueue) None [] [].

(** The two-node tree with a child that is being placed ([Placement]) and
    has no alternate. *)
Definition unmountedState : State :=
  mkState
    (<[1%nat := mkFiber 0 0 0 0 2 None (Some 2%nat)]>
       (<[2%nat := mkFiber 3 9%nat 0 0 0 None None]> (fun _ => detachedFiber)))
    (fun _ => blankUpdate) (fun _ => blankQueue) None [] [].

(** The side channel of queue 0 holds the records 1 and 2. *)
Definition twoSideState : State :=
  enqueueConcurrentHookUpdateAndEagerlyBailout sideState 1%nat 0%nat 2%nat 1.

(** Collaborators whose flush throws. *)
Definition throwingFlush : UpdateBatching.Collaborators nat :=
  {| UpdateBatching.needsStateRestore := fun e => (0 <? e)%nat;
     UpdateBatching.restoreStateIfNeeded := fun _ => (Normal tt, 0%nat);
     UpdateBatching.batchedUpdatesImpl :=
       UpdateBatching.default_batchedUpdatesImpl;
     UpdateBatching.flushSyncImpl :=
       fun e => (Throw (Error "flush"%string), e) |}.

(** An operation that returns its second argument. *)
Definition echoOp : UpdateBatching.Op nat :=
  UpdateBatching.Act (fun _ b e => (Normal b, e)).

(** A state outside a batch with one controlled component waiting for a
    restore. *)
Definition pendingRestoreState : UpdateBatching.BatchState nat :=
  UpdateBatching.mkBatchState false 0%nat 1%nat.

(** A host whose [getRootHostContext] throws. *)
Definition failingConfig : HostContext.HostConfig :=
  {| HostContext.getRootHostContext := fun _ => Throw (Error "host"%string);
     HostContext.getChildHostContext := fun _ _ _ => 0%nat;
     HostContext.type_ := fun _ => 0%nat |}.

(** A host where the context of a node is its element type, and the
    element type of a fiber is its own number: every child context is new. *)
Definition nestingConfig : HostContext.HostConfig :=
  {| HostContext.getRootHostContext := fun _ => Normal 0%nat;
     HostContext.getChildHostContext := fun _ t _ => t;
     HostContext.type_ := fun f => f |}.

(** A DOM environment with three registered events; the char code of a
    native event is its number, and a target instance has itself as its only
    listener. *)
Definition domEnv : SimpleEventPlugin.PluginEnv :=
  {| SimpleEventPlugin.topLevelEventsToReactNames := fun name =>
       if String.eqb name "click" then Some "onClick"%string
       else if String.eqb name "keypress" then Some "onKeyPress"%string
       else if String.eqb name "focusin" then Some "onFocus"%string
       else None;
     SimpleEventPlugin.getEventCharCode := fun ne =>
       Z.of_nat (SimpleEventPlugin.nativeId ne);
     SimpleEventPlugin.ANIMATION_END := "animationend"%string;
     SimpleEventPlugin.ANIMATION_ITERATION := "animationiteration"%string;
     SimpleEventPlugin.ANIMATION_START := "animationstart"%string;
     SimpleEventPlugin.TRANSITION_END := "transitionend"%string;
     SimpleEventPlugin.IS_CAPTURE_PHASE := 4;
     SimpleEventPlugin.IS_EVENT_HANDLE_NON_MANAGED_NODE := 1;
     SimpleEventPlugin.enableCreateEventHandleAPI := false;
     SimpleEventPlugin.accumulateSinglePhaseListeners :=
       fun targetInst _ _ _ _ _ =>
         match targetInst with
         | Some f => [f]
         | None => []
         end;
     SimpleEventPlugin.accumulateEventHandleNonManagedNodeListeners :=
       fun _ _ _ => [] |}.

(** A click of the right mouse button. *)
Definition rightClick : SimpleEventPlugin.NativeEvent :=
  SimpleEventPlugin.mkNativeEvent "click"%string (Some 2) 0%nat.

End MoreExamples.

(* ===================================================================== *)
(** * Part II: theorems *)
(* ===================================================================== *)

(** ** Circular lists *)

Section CircularLists.

Import ConcurrentUpdates.

Implicit Types (s : State) (l : list UpdateRef) (q : QueueRef).

Lemma nextOf_assign_next s u n x :
  nextOf (assign_next s u n) x = if decide (u = x) then n else nextOf s x.
Proof.
  unfold nextOf, assign_next; simpl. unfold insert, fn_insert.
  destruct (decide (u = x)); subst; reflexivity.
Qed.

Lemma updates_assign_next_ne s u n x :
  u <> x -> updates (assign_next s u n) x = updates s x.
Proof. intros Hne. unfold assign_next; simpl. by rewrite fn_lookup_insert_ne. Qed.

Lemma hd_snoc {A} (d t : A) (l : list A) : hd d (l ++ [t]) = hd t l.
Proof. by destruct l. Qed.

Lemma linked_ext s s' l stop :
  (forall x, x ∈ l -> nextOf s' x = nextOf s x) ->
  linked s l stop -> linked s' l stop.
Proof.
  induction l as [|x l IH]; simpl; [done|].
  intros Hx [H1 H2]. split.
  - rewrite Hx; [done | by left].
  - apply IH; [|done]. intros y Hy. apply Hx. by right.
Qed.

Lemma linked_app s l1 l2 stop :
  linked s (l1 ++ l2) stop <-> linked s l1 (hd stop l2) /\ linked s l2 stop.
Proof.
  induction l1 as [|x l1 IH]; simpl; [tauto|].
  rewrite IH. destruct l1; simpl; tauto.
Qed.

Lemma linked_snoc s l t stop :
  linked s (l ++ [t]) stop <-> linked s l t /\ nextOf s t = Some stop.
Proof. rewrite linked_app. simpl. tauto. Qed.

Lemma circular_snoc s t l0 :
  circular s t (l0 ++ [t]) <->
  NoDup (l0 ++ [t]) /\ linked s l0 t /\ nextOf s t = Some (hd t l0).
Proof.
  unfold circular. rewrite last_snoc, hd_snoc, linked_snoc.
  split; [intros (? & _ & ? & ?) | intros (? & ? & ?)]; auto.
Qed.

Lemma circular_inv s t l :
  circular s t l -> exists l0, l = l0 ++ [t].
Proof. intros (_ & Hl & _). by apply last_Some. Qed.

Lemma circular_tail_in s t l : circular s t l -> t ∈ l.
Proof. intros [l0 ->]%circular_inv. set_solver. Qed.

Lemma circular_ext s s' t l :
  (forall x, x ∈ l -> nextOf s' x = nextOf s x) ->
  circular s t l -> circular s' t l.
Proof.
  intros Hx (Hnd & Hl & Hlk). repeat split; [done..|].
  by apply (linked_ext s).
Qed.

Lemma holds_ext s s' field l :
  (forall x, x ∈ l -> nextOf s' x = nextOf s x) ->
  holds s field l -> holds s' field l.
Proof. destruct field; simpl; [apply circular_ext | done]. Qed.

(** Reading a circular list yields its records, given fuel for each. *)
Lemma readFrom_linked s tail : forall l0 fuel,
  NoDup (l0 ++ [tail]) -> linked s l0 tail ->
  (length l0 < fuel)%nat ->
  readFrom fuel s (hd tail l0) tail = Some (l0 ++ [tail]).
Proof.
  induction l0 as [|x l0 IH]; intros fuel Hnd Hlk Hfuel.
  - destruct fuel; [simpl in Hfuel; lia|]. simpl.
    by rewrite decide_True.
  - destruct fuel; [simpl in Hfuel; lia|]. simpl in *.
    destruct Hlk as [Hx Hlk]. apply NoDup_cons in Hnd as [Hnotin Hnd].
    rewrite decide_False by set_solver.
    rewrite Hx. rewrite IH; [done..|lia].
Qed.

Lemma readList_circular s tail l fuel :
  circular s tail l -> (length l <= fuel)%nat ->
  readList fuel s (Some tail) = Some l.
Proof.
  intros Hc Hfuel. destruct (circular_inv _ _ _ Hc) as [l0 ->].
  apply circular_snoc in Hc as (Hnd & Hlk & Hnext).
  unfold readList. rewrite Hnext. apply readFrom_linked; [done..|].
  rewrite length_app in Hfuel. simpl in Hfuel. lia.
Qed.

Lemma readList_holds s field l fuel :
  holds s field l -> (length l <= fuel)%nat ->
  readList fuel s field = Some l.
Proof.
  destruct field; simpl.
  - apply readList_circular.
  - by intros ->.
Qed.

End CircularLists.

(** ** The merge step *)

Section Merge.

Import ConcurrentUpdates.

Implicit Types (s : State) (l : list UpdateRef) (q : QueueRef).

Lemma transfer_none s q :
  interleaved (queues s q) = None -> transferInterleaved s q = s.
Proof. intros H. unfold transferInterleaved. by rewrite H. Qed.

(** What one round of the loop does to a queue whose side list is not
    empty. *)
Lemma transfer_some s q lastI :
  interleaved (queues s q) = Some lastI ->
  let s' := transferInterleaved s q in
  queues s' q = mkQueue (Some lastI) None /\
  (forall q', q <> q' -> queues s' q' = queues s q') /\
  (forall x,
     updates s' x =
     match pending (queues s q) with
     | Some lastP =>
         updates (assign_next (assign_next s lastP (nextOf s lastI))
                    lastI (nextOf s lastP)) x
     | None => updates s x
     end) /\
  fibers s' = fibers s /\
  concurrentQueues s' = concurrentQueues s /\
  warnings s' = warnings s /\
  stateNodeReads s' = stateNodeReads s.
Proof.
  intros H. unfold transferInterleaved. rewrite H. simpl.
  assert (Hp : pending (<[q:=set_interleaved (queues s q) None]> (queues s) q)
               = pending (queues s q)) by by rewrite fn_lookup_insert.
  rewrite Hp. clear Hp.
  destruct (pending (queues s q)) as [lastP|]; simpl.
  - repeat split.
    + by rewrite !fn_lookup_insert.
    + intros q' Hne. by rewrite !fn_lookup_insert_ne.
  - repeat split.
    + by rewrite !fn_lookup_insert.
    + intros q' Hne. by rewrite !fn_lookup_insert_ne.
Qed.

Lemma transfer_fibers s q : fibers (transferInterleaved s q) = fibers s.
Proof.
  destruct (interleaved (queues s q)) as [lastI|] eqn:H.
  - by apply transfer_some in H as (_ & _ & _ & ? & _).
  - by rewrite transfer_none.
Qed.

Lemma transfer_concurrentQueues s q :
  concurrentQueues (transferInterleaved s q) = concurrentQueues s.
Proof.
  destruct (interleaved (queues s q)) as [lastI|] eqn:H.
  - by apply transfer_some in H as (_ & _ & _ & _ & ? & _).
  - by rewrite transfer_none.
Qed.

Lemma transfer_queues_ne s q q' :
  q <> q' -> queues (transferInterleaved s q) q' = queues s q'.
Proof.
  intros Hne. destruct (interleaved (queues s q)) as [lastI|] eqn:H.
  - apply transfer_some in H as (_ & H & _). by apply H.
  - by rewrite transfer_none.
Qed.

(** A round only writes to the records its queue points to. *)
Lemma transfer_updates_frame s q x :
  (forall t, tailOf s q t -> t <> x) ->
  updates (transferInterleaved s q) x = updates s x.
Proof.
  intros Hx. destruct (interleaved (queues s q)) as [lastI|] eqn:H.
  - pose proof (transfer_some _ _ _ H) as (_ & _ & Hu & _). rewrite Hu.
    destruct (pending (queues s q)) as [lastP|] eqn:Hp; [|done].
    rewrite !updates_assign_next_ne; [done|..].
    + apply Hx. by left.
    + apply Hx. by right.
  - by rewrite transfer_none.
Qed.

(** After a round the queue points to no record it did not point to. *)
Lemma transfer_tailOf s q q' t :
  tailOf (transferInterleaved s q) q' t -> tailOf s q' t.
Proof.
  destruct (interleaved (queues s q)) as [lastI|] eqn:H;
    [|by rewrite transfer_none].
  pose proof (transfer_some _ _ _ H) as (Hq & Hne & _).
  unfold tailOf. destruct (decide (q = q')) as [<-|Hqq].
  - rewrite Hq. simpl. intros [[= <-]|[=]]. by right.
  - by rewrite Hne.
Qed.

(** The splice: the side list comes after the pending list, and the tail
    of the side list is the tail of the result. *)
Lemma transfer_splice s q lastI lastP P S :
  interleaved (queues s q) = Some lastI ->
  pending (queues s q) = Some lastP ->
  circular s lastP P -> circular s lastI S ->
  (forall x, x ∈ P -> x ∉ S) ->
  circular (transferInterleaved s q) lastI (P ++ S).
Proof.
  intros Hi Hp HP HS Hdisj.
  pose proof (transfer_some _ _ _ Hi) as (_ & _ & Hu & _).
  rewrite Hp in Hu.
  assert (Hnext : forall x, nextOf (transferInterleaved s q) x =
            if decide (lastI = x) then nextOf s lastP
            else if decide (lastP = x) then nextOf s lastI else nextOf s x).
  { intros x. unfold nextOf at 1. rewrite Hu.
    change (next (updates ?s x)) with (nextOf s x).
    by rewrite !nextOf_assign_next. }
  clear Hu. set (s' := transferInterleaved s q) in *.
  destruct (circular_inv _ _ _ HP) as [P0 ->].
  destruct (circular_inv _ _ _ HS) as [S0 ->].
  apply circular_snoc in HP as (HndP & HlkP & HnP).
  apply circular_snoc in HS as (HndS & HlkS & HnS).
  assert (HPI : lastP <> lastI).
  { intros ->. apply (Hdisj lastI); set_solver. }
  rewrite app_assoc. apply circular_snoc. split; [|split].
  - rewrite <- app_assoc. apply NoDup_app. done.
  - apply linked_app. split.
    + apply linked_snoc. split.
      * apply (linked_ext s); [|done]. intros x Hx. rewrite Hnext.
        apply NoDup_app in HndP as (_ & HP0 & _).
        rewrite !decide_False; [done|..].
        -- intros <-. apply (HP0 _ Hx). set_solver.
        -- intros <-. apply (Hdisj lastI); set_solver.
      * rewrite Hnext, decide_False, decide_True by done. done.
    + apply (linked_ext s); [|done]. intros x Hx. rewrite Hnext.
      apply NoDup_app in HndS as (_ & HS0 & _).
      rewrite !decide_False; [done|..].
      * intros <-. apply (Hdisj lastP); set_solver.
      * intros <-. apply (HS0 _ Hx). set_solver.
  - rewrite Hnext, decide_True by done. rewrite HnP. by destruct P0.
Qed.

Lemma transferAll_app qs1 qs2 s :
  transferAll (qs1 ++ qs2) s = transferAll qs2 (transferAll qs1 s).
Proof. revert s. induction qs1 as [|q qs1 IH]; intros s; simpl; auto. Qed.

Lemma transferAll_tailOf qs : forall s q' t,
  tailOf (transferAll qs s) q' t -> tailOf s q' t.
Proof.
  induction qs as [|q qs IH]; intros s q' t; simpl; [done|].
  intros H%IH. by eapply transfer_tailOf.
Qed.

Lemma transferAll_fibers qs : forall s, fibers (transferAll qs s) = fibers s.
Proof.
  induction qs as [|q qs IH]; intros s; simpl; [done|].
  by rewrite IH, transfer_fibers.
Qed.

(** Rounds for other queues, and rounds for a queue whose side list is
    already empty, leave the queue and its records alone. *)
Lemma transferAll_frame qs : forall s q l,
  (q ∈ qs -> interleaved (queues s q) = None) ->
  separated s qs q l ->
  queues (transferAll qs s) q = queues s q /\
  forall x, x ∈ l -> updates (transferAll qs s) x = updates s x.
Proof.
  induction qs as [|q' qs IH]; intros s q l Hq Hsep; simpl; [done|].
  destruct (decide (q' = q)) as [->|Hne].
  - rewrite transfer_none by (apply Hq; by left).
    apply IH.
    + intros Hin. apply Hq. by right.
    + intros q'' Hin. apply Hsep. by right.
  - destruct (IH (transferInterleaved s q') q l) as [IH1 IH2].
    + rewrite transfer_queues_ne by done. intros Hin. apply Hq. by right.
    + intros q'' Hin Hne' t Ht%transfer_tailOf.
      eapply Hsep; [by right|done..].
    + split.
      * by rewrite IH1, transfer_queues_ne.
      * intros x Hx. rewrite IH2 by done. apply transfer_updates_frame.
        intros t Ht ->. eapply Hsep; [by left|done..].
Qed.

Lemma nextOf_updates s s' x : updates s' x = updates s x -> nextOf s' x = nextOf s x.
Proof. unfold nextOf. by intros ->. Qed.

(** The rounds of the loop for a registry that holds [q], whose side list
    is not empty. *)
Lemma transferAll_merge s qs q lastI (P S : list UpdateRef) :
  q ∈ qs ->
  interleaved (queues s q) = Some lastI ->
  circular s lastI S ->
  holds s (pending (queues s q)) P ->
  (forall x, x ∈ P -> x ∉ S) ->
  separated s qs q (P ++ S) ->
  let s' := transferAll qs s in
  queues s' q = mkQueue (Some lastI) None /\
  circular s' lastI (P ++ S) /\
  (pending (queues s q) = None ->
   forall x, x ∈ S -> updates s' x = updates s x).
Proof.
  intros Hin Hi HS HP Hdisj Hsep s'. subst s'.
  apply list_elem_of_split_l in Hin as (qs1 & qs2 & -> & Hnotin).
  rewrite transferAll_app. simpl.
  set (sa := transferAll qs1 s).
  destruct (transferAll_frame qs1 s q (P ++ S)) as [Hqa Hua].
  { done. }
  { intros q' Hq'. apply Hsep. set_solver. }
  fold sa in Hqa, Hua.
  set (sb := transferInterleaved sa q).
  assert (Hia : interleaved (queues sa q) = Some lastI) by by rewrite Hqa.
  pose proof (transfer_some _ _ _ Hia) as (Hqb & Hneb & Hub & _).
  fold sb in Hqb, Hneb, Hub.
  destruct (transferAll_frame qs2 sb q (P ++ S)) as [Hqc Huc].
  { intros _. by rewrite Hqb. }
  { intros q' Hq' Hne t Ht. unfold tailOf in Ht. rewrite Hneb in Ht by done.
    apply transferAll_tailOf in Ht. eapply Hsep; [|done..]. set_solver. }
  rewrite Hqc, Hqb. split; [done|].
  assert (HSa : circular sa lastI S).
  { eapply circular_ext; [|done]. intros x Hx.
    apply nextOf_updates, Hua. set_solver. }
  split.
  - eapply circular_ext.
    { intros x Hx. apply nextOf_updates, Huc, Hx. }
    destruct (pending (queues s q)) as [lastP|] eqn:Hp; simpl in HP.
    + apply (transfer_splice sa q lastI lastP); [done|by rewrite Hqa|..|done|done].
      eapply circular_ext; [|done]. intros x Hx.
      apply nextOf_updates, Hua. set_solver.
    + subst P. simpl. eapply circular_ext; [|exact HSa].
      intros x Hx. apply nextOf_updates. rewrite Hub, Hqa, Hp. done.
  - intros Hp x Hx. rewrite Huc by set_solver.
    rewrite Hub, Hqa, Hp. apply Hua. set_solver.
Qed.

(** C1. For a registered queue whose side list is not empty, the merge
    step sets [interleaved] to [null] and makes the former tail of the side
    list the tail of the pending list.  When [pending] was [null] the records
    of the side list are left as they were (the side list becomes the
    pending list verbatim); otherwise the result is one circular list that
    reads as the records of the pending list in their order followed by the
    records of the side list in their order.  The lists are circular, share
    no record, and no other registered queue points into them. *)
Theorem C1_merge_splices_side_after_pending
    s qs q lastI (P S : list UpdateRef) :
  concurrentQueues s = Some qs -> q ∈ qs ->
  interleaved (queues s q) = Some lastI ->
  circular s lastI S ->
  holds s (pending (queues s q)) P ->
  (forall x, x ∈ P -> x ∉ S) ->
  separated s qs q (P ++ S) ->
  let s' := finishQueueingConcurrentUpdates s in
  concurrentQueues s' = None /\
  interleaved (queues s' q) = None /\
  pending (queues s' q) = Some lastI /\
  circular s' lastI (P ++ S) /\
  (pending (queues s q) = None ->
   forall x, x ∈ S -> updates s' x = updates s x).
Proof.
  intros Hreg Hin Hi HS HP Hdisj Hsep s'. subst s'.
  unfold finishQueueingConcurrentUpdates. rewrite Hreg.
  destruct (transferAll_merge s qs q lastI P S) as (Hq & Hc & Hverbatim);
    [done..|].
  simpl. rewrite Hq. simpl. split; [done|]. split; [done|]. split; [done|].
  split; [|done].
  eapply circular_ext; [|exact Hc]. done.
Qed.

End Merge.

(** ** Lane propagation *)

Section LanePropagation.

Import Lanes ConcurrentUpdates.

Context `{Constants}.

Implicit Types (s : State) (path : list FiberRef).

Lemma toInt32_id z : Js.isInt32 z -> Js.toInt32 z = z.
Proof.
  unfold Js.isInt32, Js.toInt32. intros Hz.
  rewrite Z.mod_small; lia.
Qed.

Lemma merged_includes lane v :
  Js.isInt32 lane -> merged lane v -> includesLanes v lane.
Proof.
  intros Hl [c ->]. unfold includesLanes, mergeLanes, Js.bitor.
  rewrite (toInt32_id lane Hl). apply Z.bits_inj'. intros n _.
  rewrite Z.land_spec, Z.lor_spec.
  destruct (Z.testbit lane n); [by rewrite orb_true_r | by rewrite andb_false_r].
Qed.

Lemma fibers_assign_childLanes s y l x :
  fibers (assign_childLanes s y l) x =
  if decide (y = x) then set_childLanes (fibers s y) l else fibers s x.
Proof.
  unfold assign_childLanes; simpl. unfold insert, fn_insert.
  destruct (decide (y = x)); by subst.
Qed.

Lemma fibers_assign_lanes s y l x :
  fibers (assign_lanes s y l) x =
  if decide (y = x) then set_lanes (fibers s y) l else fibers s x.
Proof.
  unfold assign_lanes; simpl. unfold insert, fn_insert.
  destruct (decide (y = x)); by subst.
Qed.

Lemma last_cons_default {A} (x d : A) (l : list A) :
  List.last (x :: l) d = List.last l x.
Proof.
  revert x d. induction l as [|y l IH]; intros x d; [done|].
  change (List.last (x :: y :: l) d) with (List.last (y :: l) d).
  by rewrite !IH.
Qed.

Lemma lastNode_cons node p path :
  lastNode node (p :: path) = lastNode p path.
Proof. apply last_cons_default. Qed.

Lemma returnPath_ext s s' node path :
  (forall x, return_ (fibers s' x) = return_ (fibers s x)) ->
  returnPath s node path -> returnPath s' node path.
Proof.
  intros Hr. revert node. induction path as [|p path IH]; intros node; simpl.
  - by rewrite Hr.
  - rewrite Hr. intros [? ?]. auto.
Qed.

Lemma returnPath_unique s : forall path1 path2 node,
  returnPath s node path1 -> returnPath s node path2 -> path1 = path2.
Proof.
  induction path1 as [|p path1 IH]; intros [|p2 path2] node; simpl; try congruence.
  - intros ? [? _]. congruence.
  - intros [? _] ?. congruence.
  - intros [H1 H1'] [H2 H2']. assert (p = p2) as <- by congruence.
    f_equal. eauto.
Qed.

Lemma returnPath_suffix s : forall path1 node x path2,
  returnPath s node (path1 ++ x :: path2) -> returnPath s x path2.
Proof.
  induction path1 as [|p path1 IH]; intros node x path2; simpl.
  - by intros [_ ?].
  - intros [_ ?]. eauto.
Qed.

(** A path that ends is free of cycles. *)
Lemma returnPath_NoDup s : forall path node,
  returnPath s node path -> NoDup (node :: path).
Proof.
  assert (Hnotin : forall path node, returnPath s node path -> node ∉ path).
  { intros path node Hp Hin.
    apply list_elem_of_split in Hin as (l1 & l2 & ->).
    pose proof (returnPath_suffix _ _ _ _ _ Hp) as Hs.
    pose proof (returnPath_unique _ _ _ _ Hp Hs) as Heq.
    apply (f_equal length) in Heq. rewrite length_app in Heq. simpl in Heq. lia. }
  induction path as [|p path IH]; intros node Hp.
  - apply NoDup_singleton.
  - apply NoDup_cons. split; [by apply Hnotin|].
    destruct Hp as [_ Hp]. by apply IH.
Qed.

(** One round of the loop. *)
Lemma markParent_spec s src lane p :
  let s' := markParent s src lane p in
  sameQueues s s' /\ stateNodeReads s' = stateNodeReads s /\
  (forall x, shape (fibers s' x) = shape (fibers s x) /\
             lanes (fibers s' x) = lanes (fibers s x)) /\
  (forall x, x <> p -> alternate (fibers s p) <> Some x ->
             childLanes (fibers s' x) = childLanes (fibers s x)) /\
  (forall x, childLanes (fibers s' x) = childLanes (fibers s x) \/
             merged lane (childLanes (fibers s' x))) /\
  merged lane (childLanes (fibers s' p)) /\
  (forall a, alternate (fibers s p) = Some a ->
             merged lane (childLanes (fibers s' a))).
Proof.
  unfold markParent.
  set (s1 := assign_childLanes s p (mergeLanes (childLanes (fibers s p)) lane)).
  assert (Halt : alternate (fibers s1 p) = alternate (fibers s p)).
  { unfold s1. rewrite fibers_assign_childLanes, decide_True by done. done. }
  rewrite Halt.
  assert (H1 : forall x, fibers s1 x =
             if decide (p = x) then set_childLanes (fibers s p)
                 (mergeLanes (childLanes (fibers s p)) lane)
             else fibers s x).
  { intros x. apply fibers_assign_childLanes. }
  destruct (alternate (fibers s p)) as [a|] eqn:Ha.
  - cbv zeta. repeat split; try done.
    + rewrite fibers_assign_childLanes, !H1. by repeat case_decide; subst.
    + rewrite fibers_assign_childLanes, !H1. by repeat case_decide; subst.
    + intros x Hxp Hxa. rewrite fibers_assign_childLanes, !H1.
      rewrite !decide_False; congruence.
    + intros x. rewrite fibers_assign_childLanes, !H1.
      repeat case_decide; subst; simpl; try done; eauto; right; by eexists.
    + rewrite fibers_assign_childLanes, !H1.
      repeat case_decide; subst; simpl; try done; by eexists.
    + intros a' [= <-]. rewrite fibers_assign_childLanes, decide_True by done.
      by eexists.
  - assert (Hs' : forall s2,
      s2 = s1 \/ s2 = warnAboutUpdateOnNotYetMountedFiberInDEV s1 src ->
      sameQueues s s2 /\ stateNodeReads s2 = stateNodeReads s /\
      fibers s2 = fibers s1).
    { intros s2 [->| ->]; done. }
    set (s' := if __DEV__ then (if notYetMounted s1 p then _ else s1) else s1).
    destruct (Hs' s') as (Hq & Hr & Hf).
    { subst s'. destruct __DEV__; [destruct (notYetMounted s1 p)|]; auto. }
    clearbody s'. rewrite Hf. repeat split; try apply Hq; try done.
    + rewrite H1. by case_decide; subst.
    + rewrite H1. by case_decide; subst.
    + intros x Hxp _. rewrite H1, decide_False; congruence.
    + intros x. rewrite H1. case_decide; subst; simpl; eauto.
      right; by eexists.
    + rewrite H1, decide_True by done. by eexists.
Qed.

(** The whole loop, given fuel for every node of the path. *)
Lemma walkParentPath_spec src lane : forall path fuel s node,
  returnPath s node path -> (length path <= fuel)%nat ->
  exists s',
    walkParentPath fuel s src lane node (return_ (fibers s node))
      = Some (s', lastNode node path) /\
    sameQueues s s' /\ stateNodeReads s' = stateNodeReads s /\
    (forall x, shape (fibers s' x) = shape (fibers s x) /\
               lanes (fibers s' x) = lanes (fibers s x)) /\
    (forall x, x ∉ path ->
               (forall p, p ∈ path -> alternate (fibers s p) <> Some x) ->
               childLanes (fibers s' x) = childLanes (fibers s x)) /\
    (forall x, childLanes (fibers s' x) = childLanes (fibers s x) \/
               merged lane (childLanes (fibers s' x))) /\
    (forall p, p ∈ path ->
               merged lane (childLanes (fibers s' p)) /\
               forall a, alternate (fibers s p) = Some a ->
                         merged lane (childLanes (fibers s' a))).
Proof.
  induction path as [|p path IH]; intros fuel s node Hpath Hfuel.
  - simpl in Hpath. rewrite Hpath. exists s.
    split; [by destruct fuel|].
    repeat split; auto; intros; exfalso; set_solver.
  - destruct Hpath as [Hret Hpath]. rewrite Hret, lastNode_cons.
    destruct fuel as [|fuel]; [simpl in Hfuel; lia|]. simpl.
    pose proof (markParent_spec s src lane p)
      as (Hq & Hr & Hshape & Hframe & Hmono & Hp & Ha).
    set (s1 := markParent s src lane p) in *.
    assert (Hsh : forall x, alternate (fibers s1 x) = alternate (fibers s x) /\
                            return_ (fibers s1 x) = return_ (fibers s x)).
    { intros x. destruct (Hshape x) as [Hx _]. unfold shape in Hx.
      by injection Hx. }
    destruct (IH fuel s1 p) as (s' & Hrun & Hq' & Hr' & Hshape' & Hframe' & Hmono' & Hin').
    { eapply returnPath_ext; [|done]. intros x. apply Hsh. }
    { simpl in Hfuel. lia. }
    exists s'. split; [done|]. split.
    { destruct Hq as (? & ? & ?), Hq' as (? & ? & ?).
      repeat split; congruence. }
    split; [congruence|]. split.
    { intros x. destruct (Hshape x), (Hshape' x). split; congruence. }
    split.
    { intros x Hx Halt. rewrite Hframe'.
      - apply Hframe; [set_solver|]. apply Halt. set_solver.
      - set_solver.
      - intros p' Hp'. destruct (Hsh p') as [-> _]. apply Halt. set_solver. }
    split.
    { intros x. destruct (Hmono' x) as [->|]; auto. }
    intros p' [->|Hp']%elem_of_cons.
    + split.
      * destruct (Hmono' p) as [->|]; auto.
      * intros a Halt. destruct (Hmono' a) as [->|]; auto.
    + destruct (Hin' p' Hp') as [? Hin'']. split; [done|].
      intros a Halt. apply Hin''. by destruct (Hsh p') as [-> _].
Qed.

(** Lane propagation returns, given fuel for every ancestor: what it
    returns and how the state after it compares to the state before. *)
Lemma markUpdateLaneFromFiberToRoot_spec s src lane path fuel :
  returnPath s src path -> (length path <= fuel)%nat ->
  let node := lastNode src path in
  exists s',
    markUpdateLaneFromFiberToRoot fuel s src lane
      = Some (s', if decide (tag (fibers s node) = HostRoot)
                  then Some (stateNode (fibers s node)) else None) /\
    sameQueues s s' /\
    stateNodeReads s' =
      (if decide (tag (fibers s node) = HostRoot)
       then node :: stateNodeReads s else stateNodeReads s) /\
    (forall x, shape (fibers s' x) = shape (fibers s x)) /\
    (forall x, x <> src -> alternate (fibers s src) <> Some x ->
               lanes (fibers s' x) = lanes (fibers s x)) /\
    merged lane (lanes (fibers s' src)) /\
    (forall a, alternate (fibers s src) = Some a ->
               merged lane (lanes (fibers s' a))) /\
    (forall x, x ∉ path ->
               (forall p, p ∈ path -> alternate (fibers s p) <> Some x) ->
               childLanes (fibers s' x) = childLanes (fibers s x)) /\
    (forall p, p ∈ path ->
               merged lane (childLanes (fibers s' p)) /\
               forall a, alternate (fibers s p) = Some a ->
                         merged lane (childLanes (fibers s' a))).
Proof.
  intros Hpath Hfuel node. unfold markUpdateLaneFromFiberToRoot.
  set (s1 := assign_lanes s src (mergeLanes (lanes (fibers s src)) lane)).
  assert (Halt : alternate (fibers s1 src) = alternate (fibers s src)).
  { unfold s1. by rewrite fibers_assign_lanes, decide_True. }
  rewrite Halt.
  set (s2 := match alternate (fibers s src) with
             | Some a => assign_lanes s1 a (mergeLanes (lanes (fibers s1 a)) lane)
             | None => s1
             end).
  set (s3 := if __DEV__ then _ else s2).
  assert (H3 : sameQueues s s3 /\ stateNodeReads s3 = stateNodeReads s /\
               fibers s3 = fibers s2).
  { assert (H2 : sameQueues s s2 /\ stateNodeReads s2 = stateNodeReads s).
    { unfold s2. by destruct (alternate (fibers s src)). }
    unfold s3. destruct H2 as [? ?].
    destruct __DEV__;
      [destruct (alternate (fibers s src)); [|destruct (notYetMounted s2 src)]|];
      done. }
  destruct H3 as (Hq3 & Hr3 & Hf3).
  assert (Hsh3 : forall x, shape (fibers s3 x) = shape (fibers s x) /\
                           childLanes (fibers s3 x) = childLanes (fibers s x)).
  { intros x. rewrite Hf3. unfold s2, s1.
    destruct (alternate (fibers s src));
      rewrite ?fibers_assign_lanes; repeat case_decide; by subst. }
  assert (Hl3 : (forall x, x <> src -> alternate (fibers s src) <> Some x ->
                           lanes (fibers s3 x) = lanes (fibers s x)) /\
                merged lane (lanes (fibers s3 src)) /\
                (forall a, alternate (fibers s src) = Some a ->
                           merged lane (lanes (fibers s3 a)))).
  { rewrite Hf3. unfold s2, s1. destruct (alternate (fibers s src)) as [a|].
    - repeat split.
      + intros x ? ?. rewrite !fibers_assign_lanes, !decide_False; congruence.
      + rewrite !fibers_assign_lanes.
        repeat case_decide; subst; simpl; try done; by eexists.
      + intros ? [= <-]. rewrite fibers_assign_lanes, decide_True by done.
        by eexists.
    - repeat split; [| |done].
      + intros x ? _. rewrite fibers_assign_lanes, decide_False; congruence.
      + rewrite fibers_assign_lanes, decide_True by done. by eexists. }
  destruct Hl3 as (Hl3 & Hsrc3 & Halt3).
  assert (Hfield : forall x, tag (fibers s3 x) = tag (fibers s x) /\
            stateNode (fibers s3 x) = stateNode (fibers s x) /\
            alternate (fibers s3 x) = alternate (fibers s x) /\
            return_ (fibers s3 x) = return_ (fibers s x)).
  { intros x. destruct (Hsh3 x) as [Hx _]. unfold shape in Hx.
    injection Hx. auto. }
  destruct (walkParentPath_spec src lane path fuel s3 src)
    as (s' & Hrun & Hq & Hr & Hshape & Hframe & Hmono & Hin); [|done|].
  { eapply returnPath_ext; [|done]. intros x. apply Hfield. }
  rewrite Hrun. fold node.
  assert (Hfield' : forall x, tag (fibers s' x) = tag (fibers s x) /\
            stateNode (fibers s' x) = stateNode (fibers s x)).
  { intros x. destruct (Hshape x) as [Hx _]. unfold shape in Hx.
    destruct (Hfield x) as (<- & <- & _). injection Hx. auto. }
  destruct (Hfield' node) as [-> Hsn].
  assert (Hrest :
    forall s'', fibers s'' = fibers s' ->
    (forall x, shape (fibers s'' x) = shape (fibers s x)) /\
    (forall x, x <> src -> alternate (fibers s src) <> Some x ->
               lanes (fibers s'' x) = lanes (fibers s x)) /\
    merged lane (lanes (fibers s'' src)) /\
    (forall a, alternate (fibers s src) = Some a ->
               merged lane (lanes (fibers s'' a))) /\
    (forall x, x ∉ path ->
               (forall p, p ∈ path -> alternate (fibers s p) <> Some x) ->
               childLanes (fibers s'' x) = childLanes (fibers s x)) /\
    (forall p, p ∈ path ->
               merged lane (childLanes (fibers s'' p)) /\
               forall a, alternate (fibers s p) = Some a ->
                         merged lane (childLanes (fibers s'' a)))).
  { intros s'' ->. split; [|split; [|split; [|split; [|split]]]].
    - intros x. destruct (Hshape x) as [-> _]. apply Hsh3.
    - intros x ? ?. destruct (Hshape x) as [_ ->]. by apply Hl3.
    - by destruct (Hshape src) as [_ ->].
    - intros a Ha. destruct (Hshape a) as [_ ->]. by apply Halt3.
    - intros x Hx Hxa. rewrite Hframe; [apply Hsh3|done|].
      intros p Hp. destruct (Hfield p) as (_ & _ & -> & _). by apply Hxa.
    - intros p Hp. destruct (Hin p Hp) as [? Hin']. split; [done|].
      intros a Ha. apply Hin'. by destruct (Hfield p) as (_ & _ & -> & _). }
  destruct Hq3 as (? & ? & ?), Hq as (? & ? & ?).
  destruct (decide (tag (fibers s node) = HostRoot)); simpl.
  - eexists. split; [by rewrite Hsn|]. unfold sameQueues. simpl.
    split; [repeat split; congruence|]. split; [congruence|].
    by apply Hrest.
  - eexists. split; [done|]. unfold sameQueues.
    split; [repeat split; congruence|]. split; [congruence|].
    by apply Hrest.
Qed.

(** C4. Lane propagation from a node of a tree returns, and afterwards the
    [lanes] of the node (and of its alternate, if it has one) include the
    lane, and the [childLanes] of every ancestor (and of its alternate, if it
    has one) include the lane.  When the alternates of the nodes on the path
    are not themselves on the path, the node's own [childLanes] and the
    [lanes] of every ancestor are what they were. *)
Theorem C4_propagation_marks_lanes s sourceFiber lane path fuel :
  Js.isInt32 lane ->
  returnPath s sourceFiber path -> (length path <= fuel)%nat ->
  exists s' root,
    markUpdateLaneFromFiberToRoot fuel s sourceFiber lane = Some (s', root) /\
    includesLanes (lanes (fibers s' sourceFiber)) lane /\
    (forall a, alternate (fibers s sourceFiber) = Some a ->
               includesLanes (lanes (fibers s' a)) lane) /\
    (forall p, p ∈ path ->
               includesLanes (childLanes (fibers s' p)) lane /\
               forall a, alternate (fibers s p) = Some a ->
                         includesLanes (childLanes (fibers s' a)) lane) /\
    (mirrorsApart s (sourceFiber :: path) ->
     childLanes (fibers s' sourceFiber) = childLanes (fibers s sourceFiber) /\
     forall p, p ∈ path -> lanes (fibers s' p) = lanes (fibers s p)).
Proof.
  intros Hlane Hpath Hfuel.
  destruct (markUpdateLaneFromFiberToRoot_spec s sourceFiber lane path fuel)
    as (s' & Hrun & _ & _ & _ & Hlanes & Hsrc & Halt & Hchild & Hin);
    [done..|].
  exists s'. eexists. split; [exact Hrun|].
  split; [by apply merged_includes|].
  split; [intros a Ha; by apply merged_includes, Halt|].
  split.
  { intros p Hp. destruct (Hin p Hp) as [? Hin']. split.
    - by apply merged_includes.
    - intros a Ha. by apply merged_includes, Hin'. }
  intros Hapart.
  apply returnPath_NoDup, NoDup_cons in Hpath as [Hnotin _].
  split.
  - apply Hchild; [done|]. intros p Hp Ha.
    apply (Hapart p sourceFiber); [by right|done|by left].
  - intros p Hp. apply Hlanes.
    + by intros ->.
    + intros Ha. apply (Hapart sourceFiber p); [by left|done|by right].
Qed.

(** C5. Lane propagation returns the root container (the [stateNode] of the
    last node reached along [return]) exactly when that node has the
    [HostRoot] tag, reading [stateNode] once, of that node; when the last
    node is not a root marker it returns [null] and reads no [stateNode]. *)
Theorem C5_root_container_or_absent s sourceFiber lane path fuel :
  returnPath s sourceFiber path -> (length path <= fuel)%nat ->
  let node := lastNode sourceFiber path in
  exists s' root,
    markUpdateLaneFromFiberToRoot fuel s sourceFiber lane = Some (s', root) /\
    (tag (fibers s node) = HostRoot ->
     root = Some (stateNode (fibers s node)) /\
     stateNodeReads s' = node :: stateNodeReads s) /\
    (tag (fibers s node) <> HostRoot ->
     root = None /\ stateNodeReads s' = stateNodeReads s) /\
    (is_Some root <-> tag (fibers s node) = HostRoot).
Proof.
  intros Hpath Hfuel node.
  destruct (markUpdateLaneFromFiberToRoot_spec s sourceFiber lane path fuel)
    as (s' & Hrun & _ & Hreads & _); [done..|].
  fold node in Hrun, Hreads.
  exists s'. eexists. split; [exact Hrun|].
  destruct (decide (tag (fibers s node) = HostRoot)) as [Hroot|Hroot].
  - split; [done|]. split; [done|]. split; [done|]. intros _. by eexists.
  - split; [done|]. split; [done|]. split; [|done].
    intros [? [=]].
Qed.

End LanePropagation.

(** ** Enqueueing on the side channel *)

Section Enqueue.

Import Lanes ConcurrentUpdates.

Context `{Constants}.

Implicit Types (s : State) (l : list UpdateRef) (q : QueueRef).

Lemma pushConcurrentUpdateQueue_spec s q :
  let s' := pushConcurrentUpdateQueue s q in
  fibers s' = fibers s /\ updates s' = updates s /\ queues s' = queues s /\
  warnings s' = warnings s /\ stateNodeReads s' = stateNodeReads s /\
  concurrentQueues s' = Some (registered s ++ [q]).
Proof.
  unfold pushConcurrentUpdateQueue, registered.
  by destruct (concurrentQueues s).
Qed.

Lemma nextOf_assign_interleaved s q v x :
  nextOf (assign_interleaved s q v) x = nextOf s x.
Proof. reflexivity. Qed.

(** The queue part of every enqueue. *)
Lemma bailout_spec s fiber q u lane :
  let s' := enqueueConcurrentHookUpdateAndEagerlyBailout s fiber q u lane in
  fibers s' = fibers s /\ warnings s' = warnings s /\
  stateNodeReads s' = stateNodeReads s /\
  queues s' q = mkQueue (pending (queues s q)) (Some u) /\
  (forall q', q <> q' -> queues s' q' = queues s q') /\
  match interleaved (queues s q) with
  | None =>
      concurrentQueues s' = Some (registered s ++ [q]) /\
      (forall x, nextOf s' x = if decide (u = x) then Some u else nextOf s x) /\
      (forall x, u <> x -> updates s' x = updates s x)
  | Some i =>
      concurrentQueues s' = concurrentQueues s /\
      (forall x, nextOf s' x =
                 if decide (i = x) then Some u
                 else if decide (u = x) then nextOf s i else nextOf s x) /\
      (forall x, u <> x -> i <> x -> updates s' x = updates s x)
  end.
Proof.
  unfold enqueueConcurrentHookUpdateAndEagerlyBailout.
  destruct (interleaved (queues s q)) as [i|] eqn:Hi; cbv zeta.
  - repeat split.
    + simpl. by rewrite fn_lookup_insert.
    + intros q' Hne. simpl. by rewrite fn_lookup_insert_ne.
    + intros x. by rewrite nextOf_assign_interleaved, !nextOf_assign_next.
    + intros x Hu Hx. simpl. by rewrite !fn_lookup_insert_ne.
  - pose proof (pushConcurrentUpdateQueue_spec (assign_next s u (Some u)) q)
      as (Hf & Hu & Hq & Hw & Hr & Hreg).
    set (s1 := pushConcurrentUpdateQueue (assign_next s u (Some u)) q) in *.
    unfold assign_interleaved; simpl. rewrite Hf, Hu, Hq, Hw, Hr, Hreg.
    repeat split.
    + simpl. by rewrite fn_lookup_insert.
    + intros q' Hne. simpl. by rewrite fn_lookup_insert_ne.
    + intros x. unfold nextOf at 1. simpl. unfold insert, fn_insert.
      by case_decide; subst.
    + intros x Hne. simpl. by rewrite fn_lookup_insert_ne.
Qed.

Lemma bailout_appended s fiber q u lane :
  appended s q u (enqueueConcurrentHookUpdateAndEagerlyBailout s fiber q u lane).
Proof.
  pose proof (bailout_spec s fiber q u lane) as (_ & _ & _ & Hq & _ & Hcase).
  unfold appended. rewrite Hq. split; [done|].
  destruct (interleaved (queues s q)) as [i|].
  - destruct Hcase as (Hreg & Hnext & _). repeat split; [| |done].
    + by rewrite Hnext, decide_True.
    + intros Hne. rewrite Hnext, decide_False, decide_True; done.
  - destruct Hcase as (Hreg & Hnext & _). split; [|done].
    by rewrite Hnext, decide_True.
Qed.

(** An append keeps the side list circular, the new record last. *)
Lemma bailout_circular s fiber q u lane l :
  holds s (interleaved (queues s q)) l -> u ∉ l ->
  circular (enqueueConcurrentHookUpdateAndEagerlyBailout s fiber q u lane)
    u (l ++ [u]).
Proof.
  intros Hl Hu.
  pose proof (bailout_spec s fiber q u lane) as (_ & _ & _ & _ & _ & Hcase).
  destruct (interleaved (queues s q)) as [i|]; simpl in Hl.
  - destruct Hcase as (_ & Hnext & _).
    destruct (circular_inv _ _ _ Hl) as [l0 ->].
    apply circular_snoc in Hl as (Hnd & Hlk & Hn).
    apply circular_snoc. split; [|split].
    + apply NoDup_app. split; [done|]. split; [set_solver|apply NoDup_singleton].
    + apply linked_snoc. split.
      * apply (linked_ext s); [|done]. intros x Hx. rewrite Hnext.
        apply NoDup_app in Hnd as (_ & Hl0 & _).
        rewrite !decide_False; [done|..].
        -- intros <-. set_solver.
        -- intros <-. apply (Hl0 _ Hx). set_solver.
      * by rewrite Hnext, decide_True.
    + rewrite Hnext, decide_False, decide_True by set_solver.
      rewrite Hn. by destruct l0.
  - subst l. destruct Hcase as (_ & Hnext & _).
    apply (circular_snoc _ u []). split; [apply NoDup_singleton|]. split; [done|].
    by rewrite Hnext, decide_True.
Qed.

(** The two entry points that propagate lanes do the queue part first. *)
Lemma enqueueConcurrentHookUpdate_unfold fuel s fiber q u lane :
  enqueueConcurrentHookUpdate fuel s fiber q u lane =
  markUpdateLaneFromFiberToRoot fuel
    (enqueueConcurrentHookUpdateAndEagerlyBailout s fiber q u lane) fiber lane.
Proof. reflexivity. Qed.

Lemma enqueueConcurrentClassUpdate_unfold fuel s fiber q u lane :
  enqueueConcurrentClassUpdate fuel s fiber q u lane =
  markUpdateLaneFromFiberToRoot fuel
    (enqueueConcurrentHookUpdateAndEagerlyBailout s fiber q u lane) fiber lane.
Proof. reflexivity. Qed.

Lemma appended_sameQueues s q u s1 s2 :
  sameQueues s1 s2 -> appended s q u s1 -> appended s q u s2.
Proof.
  intros (Hu & Hq & Hr). unfold appended, nextOf. by rewrite Hu, Hq, Hr.
Qed.

Lemma circular_sameQueues s1 s2 t l :
  sameQueues s1 s2 -> circular s1 t l -> circular s2 t l.
Proof.
  intros (Hu & _). apply circular_ext. intros x _. unfold nextOf. by rewrite Hu.
Qed.

(** Lane propagation after the queue part returns and leaves the queues as
    the queue part made them. *)
Lemma propagate_after_bailout s fiber q u lane path fuel :
  returnPath s fiber path -> (length path <= fuel)%nat ->
  exists s' root,
    markUpdateLaneFromFiberToRoot fuel
      (enqueueConcurrentHookUpdateAndEagerlyBailout s fiber q u lane)
      fiber lane = Some (s', root) /\
    sameQueues (enqueueConcurrentHookUpdateAndEagerlyBailout s fiber q u lane) s'.
Proof.
  intros Hpath Hfuel.
  set (sb := enqueueConcurrentHookUpdateAndEagerlyBailout s fiber q u lane).
  pose proof (bailout_spec s fiber q u lane) as (Hf & _). fold sb in Hf.
  destruct (markUpdateLaneFromFiberToRoot_spec sb fiber lane path fuel)
    as (s' & Hrun & Hq & _); [|done|].
  { eapply returnPath_ext; [|done]. intros x. by rewrite Hf. }
  eauto.
Qed.

(** C3. An enqueue, hook-style or class-style, returns, and afterwards the
    side channel's tail is the new record.  On an empty side channel the
    record points to itself and the queue has joined the registry; otherwise
    the old tail points to the record and the record to what the old tail
    pointed to.  A circular side list stays circular with the record as its
    last element; in particular a record [B] enqueued where the side channel
    held only [A] gives [B.next = A], [A.next = B] and tail [B]. *)
Theorem C3_enqueue_splices_into_side_channel s fiber q u lane path fuel :
  returnPath s fiber path -> (length path <= fuel)%nat ->
  forall enqueue,
    enqueue = enqueueConcurrentHookUpdate \/
    enqueue = enqueueConcurrentClassUpdate ->
    exists s' root,
      enqueue fuel s fiber q u lane = Some (s', root) /\
      appended s q u s' /\
      (forall l, holds s (interleaved (queues s q)) l -> u ∉ l ->
                 circular s' u (l ++ [u])) /\
      (forall A, interleaved (queues s q) = Some A -> nextOf s A = Some A ->
                 u <> A ->
                 nextOf s' u = Some A /\ nextOf s' A = Some u /\
                 interleaved (queues s' q) = Some u).
Proof.
  intros Hpath Hfuel enqueue Henq.
  destruct (propagate_after_bailout s fiber q u lane path fuel)
    as (s' & root & Hrun & Hsame); [done..|].
  exists s', root. split.
  { by destruct Henq as [-> | ->]. }
  pose proof (bailout_appended s fiber q u lane) as Happ.
  apply (appended_sameQueues _ _ _ _ _ Hsame) in Happ.
  split; [done|]. split.
  - intros l Hl Hu. eapply circular_sameQueues; [done|].
    by apply bailout_circular.
  - intros A HA HAA Hne. destruct Happ as [Htail Happ]. rewrite HA in Happ.
    destruct Happ as (HnA & Hnu & _). rewrite Hnu, HAA; done.
Qed.

(** C9. The eager-bailout enqueue changes no fiber (no [lanes], no
    [childLanes]), reads no root container and warns of nothing, and leaves
    the update records, the queues and the registry exactly as the hook-style
    enqueue leaves them. *)
Theorem C9_eager_bailout_skips_propagation s fiber q u lane path fuel :
  returnPath s fiber path -> (length path <= fuel)%nat ->
  let sb := enqueueConcurrentHookUpdateAndEagerlyBailout s fiber q u lane in
  sameFibers s sb /\
  warnings sb = warnings s /\ stateNodeReads sb = stateNodeReads s /\
  appended s q u sb /\
  exists s' root,
    enqueueConcurrentHookUpdate fuel s fiber q u lane = Some (s', root) /\
    sameQueues s' sb.
Proof.
  intros Hpath Hfuel sb.
  pose proof (bailout_spec s fiber q u lane) as (Hf & Hw & Hr & _).
  split; [done|]. split; [done|]. split; [done|].
  split; [apply bailout_appended|].
  destruct (propagate_after_bailout s fiber q u lane path fuel)
    as (s' & root & Hrun & (Hu & Hq & Hreg)); [done..|].
  exists s', root. split; [done|]. by repeat split.
Qed.

End Enqueue.

(** ** Appends followed by the merge step *)

Section AppendsThenMerge.

Import Lanes ConcurrentUpdates.

Context `{Constants}.

Implicit Types (s : State) (l : list UpdateRef) (q : QueueRef).

Lemma sameQueues_trans s1 s2 s3 :
  sameQueues s1 s2 -> sameQueues s2 s3 -> sameQueues s1 s3.
Proof. intros (? & ? & ?) (? & ? & ?). repeat split; congruence. Qed.

(** Whenever the loop returns, it has left the queues alone. *)
Lemma walkParentPath_sameQueues src lane : forall fuel s node parent s' n,
  walkParentPath fuel s src lane node parent = Some (s', n) ->
  sameQueues s s'.
Proof.
  induction fuel as [|fuel IH]; intros s node [p|] s' n; simpl;
    try (intros [= <- _]; by repeat split); try done.
  intros Hrun%IH.
  pose proof (markParent_spec s src lane p) as (Hq & _).
  by eapply sameQueues_trans.
Qed.

Lemma markUpdateLaneFromFiberToRoot_sameQueues fuel s src lane s' root :
  markUpdateLaneFromFiberToRoot fuel s src lane = Some (s', root) ->
  sameQueues s s'.
Proof.
  unfold markUpdateLaneFromFiberToRoot.
  set (s3 := if __DEV__ then _ else _).
  assert (H3 : sameQueues s s3).
  { unfold s3.
    destruct __DEV__;
      destruct (alternate (fibers (assign_lanes s src _) src)); try done.
    by match goal with |- context [if ?b then _ else _] => destruct b end. }
  destruct (walkParentPath fuel s3 src lane src _) as [[s4 node]|] eqn:Hw;
    [|done].
  apply walkParentPath_sameQueues in Hw.
  pose proof (sameQueues_trans _ _ _ H3 Hw) as (? & ? & ?).
  destruct (decide _); intros [= <- _]; by repeat split.
Qed.

(** Every entry point does to the queues what the eager-bailout enqueue
    does. *)
Lemma appendStep_sameQueues q u s s' :
  appendStep q u s s' ->
  fibers (enqueueConcurrentHookUpdateAndEagerlyBailout s 0%nat q u 0)
    = fibers s /\
  sameQueues (enqueueConcurrentHookUpdateAndEagerlyBailout s 0%nat q u 0) s'.
Proof.
  intros Hstep. split; [apply bailout_spec|].
  destruct Hstep as [fuel s fiber lane s' root Hrun
                    |fuel s fiber lane s' root Hrun|s fiber lane].
  - rewrite enqueueConcurrentHookUpdate_unfold in Hrun.
    by apply markUpdateLaneFromFiberToRoot_sameQueues in Hrun.
  - rewrite enqueueConcurrentClassUpdate_unfold in Hrun.
    by apply markUpdateLaneFromFiberToRoot_sameQueues in Hrun.
  - by repeat split.
Qed.

Lemma holds_sameQueues s1 s2 (field : option UpdateRef) l :
  sameQueues s1 s2 -> holds s1 field l -> holds s2 field l.
Proof.
  intros (Hu & _). apply holds_ext. intros x _. unfold nextOf. by rewrite Hu.
Qed.

(** A sequence of appends extends the side list by the new records, in
    their order, and touches nothing else. *)
Lemma appends_spec q : forall us s s1 L0,
  appends q us s s1 ->
  holds s (interleaved (queues s q)) L0 ->
  NoDup us -> (forall x, x ∈ L0 -> x ∉ us) ->
  holds s1 (interleaved (queues s1 q)) (L0 ++ us) /\
  pending (queues s1 q) = pending (queues s q) /\
  (forall q', q <> q' -> queues s1 q' = queues s q') /\
  (forall x, x ∉ L0 ++ us -> updates s1 x = updates s x) /\
  (forall q', q' ∈ registered s1 -> q' = q \/ q' ∈ registered s) /\
  (q ∈ registered s -> q ∈ registered s1) /\
  (interleaved (queues s q) = None -> us <> [] -> q ∈ registered s1).
Proof.
  induction us as [|u us IH]; intros s s1 L0 Happ HL0 Hnd Hdisj.
  - inversion Happ; subst. rewrite app_nil_r. repeat split; auto. done.
  - inversion Happ as [|u' us' s' sm s1' Hstep Hrest]; subst.
    apply NoDup_cons in Hnd as [Hu Hnd].
    assert (HuL0 : u ∉ L0) by (intros Hin; apply (Hdisj u Hin); by left).
    apply appendStep_sameQueues in Hstep as [_ Hsame].
    pose proof (bailout_spec s 0%nat q u 0) as (_ & _ & _ & Hq & Hne & Hcase).
    pose proof (bailout_circular s 0%nat q u 0 L0 HL0 HuL0) as Hcirc.
    set (sb := enqueueConcurrentHookUpdateAndEagerlyBailout s 0%nat q u 0) in *.
    destruct Hsame as (Hsu & Hsq & Hsr).
    assert (Hqm : queues sm q = mkQueue (pending (queues s q)) (Some u))
      by by rewrite Hsq.
    destruct (IH sm s1 (L0 ++ [u])) as (IH1 & IH2 & IH3 & IH4 & IH5 & IH6 & _);
      [done| |done| |].
    { rewrite Hqm. simpl. eapply circular_ext; [|exact Hcirc].
      intros x _. unfold nextOf. by rewrite Hsu. }
    { intros x [Hx| ->%list_elem_of_singleton]%elem_of_app; [|done].
      intros Hin. apply (Hdisj x Hx). by right. }
    rewrite <- app_assoc in IH1, IH4. simpl in IH1, IH4.
    assert (Hregm : registered sm = registered s \/
                    (interleaved (queues s q) = None /\
                     registered sm = registered s ++ [q])).
    { destruct (interleaved (queues s q)); destruct Hcase as (Hreg' & _);
        [left|right; split; [done|]]; unfold registered at 1;
        by rewrite Hsr, Hreg'. }
    split; [done|]. split; [by rewrite IH2, Hqm|]. split.
    { intros q' Hq'. by rewrite IH3, Hsq, Hne. }
    split.
    { intros x Hx. rewrite IH4, Hsu by done.
      destruct (interleaved (queues s q)) as [i|]; simpl in HL0.
      - destruct Hcase as (_ & _ & Hupd). apply Hupd.
        + intros ->. set_solver.
        + intros ->. apply circular_tail_in in HL0. set_solver.
      - destruct Hcase as (_ & _ & Hupd). apply Hupd.
        intros ->. set_solver. }
    split.
    { intros q' [->|Hq']%IH5; [by left|].
      destruct Hregm as [Heq|[_ Heq]]; rewrite Heq in Hq'; set_solver. }
    split.
    { intros Hin. apply IH6.
      destruct Hregm as [Heq|[_ Heq]]; rewrite Heq; set_solver. }
    intros Hnone _. apply IH6.
    destruct Hregm as [Heq|[_ Heq]].
    + rewrite Hnone in Hcase. destruct Hcase as (Hreg & _).
      unfold registered at 1. rewrite Hsr, Hreg. set_solver.
    + rewrite Heq. set_solver.
Qed.

Lemma finish_registered s :
  queues (finishQueueingConcurrentUpdates s)
    = queues (transferAll (registered s) s) /\
  updates (finishQueueingConcurrentUpdates s)
    = updates (transferAll (registered s) s) /\
  concurrentQueues (finishQueueingConcurrentUpdates s) = None.
Proof.
  unfold finishQueueingConcurrentUpdates, registered.
  by destruct (concurrentQueues s) eqn:Hreg.
Qed.

Lemma circular_wraps s t l :
  circular s t l -> nextOf s t = Some (hd t l).
Proof.
  intros Hc. destruct (circular_inv _ _ _ Hc) as [l0 ->].
  apply circular_snoc in Hc as (_ & _ & ->). by rewrite hd_snoc.
Qed.

(** C2 (as amended). After any sequence of appends of distinct fresh
    records on a queue whose side channel was empty, followed by one merge
    call, the pending list is circular (the tail's [next] is the head) and
    reads, from [pending.next] to [pending], as the records that were in the
    pending list before, followed by the appended records in the order of
    the appends. *)
Theorem C2_merge_reads_pending_then_appended s q us (P : list UpdateRef) s1 :
  interleaved (queues s q) = None ->
  holds s (pending (queues s q)) P ->
  NoDup us -> (forall x, x ∈ P -> x ∉ us) ->
  separated s (registered s) q (P ++ us) ->
  appends q us s s1 ->
  let s' := finishQueueingConcurrentUpdates s1 in
  interleaved (queues s' q) = None /\
  holds s' (pending (queues s' q)) (P ++ us) /\
  (forall tail, pending (queues s' q) = Some tail ->
                nextOf s' tail = Some (hd tail (P ++ us))) /\
  (forall fuel, (length (P ++ us) <= fuel)%nat ->
                readList fuel s' (pending (queues s' q)) = Some (P ++ us)).
Proof.
  intros Hi HP Hnd Hdisj Hsep Happ s'.
  destruct (appends_spec q us s s1 [] Happ)
    as (Hside & Hpend & Hother & Hupd & Hreg & _ & Hin);
    [by rewrite Hi|done|by intros x ?%elem_of_nil|].
  simpl in Hside, Hupd.
  assert (HP1 : holds s1 (pending (queues s1 q)) P).
  { rewrite Hpend. eapply holds_ext; [|done]. intros x Hx.
    apply nextOf_updates, Hupd. intros Hin'. by apply (Hdisj x). }
  assert (Hsep1 : forall l, (forall x, x ∈ l -> x ∈ P ++ us) ->
                            separated s1 (registered s1) q l).
  { intros l Hl q' Hq' Hne t Ht Htl. unfold tailOf in Ht.
    rewrite Hother in Ht by done.
    destruct (Hreg q' Hq') as [?|Hq'']; [done|].
    by apply (Hsep q' Hq'' Hne t Ht), Hl. }
  destruct (finish_registered s1) as (Hfq & Hfu & _). fold s' in Hfq, Hfu.
  assert (Hgoal : interleaved (queues s' q) = None /\
                  holds s' (pending (queues s' q)) (P ++ us)).
  { destruct (interleaved (queues s1 q)) as [t|] eqn:Hi1; simpl in Hside.
    - assert (us <> []) as Hne.
      { intros ->. destruct Hside as (_ & [=] & _). }
      destruct (transferAll_merge s1 (registered s1) q t P us)
        as (Hq & Hc & _); [by apply Hin|done..| |].
      { apply Hsep1. auto. }
      rewrite Hfq, Hq. simpl. split; [done|].
      eapply circular_ext; [|exact Hc]. intros x _. unfold nextOf.
      by rewrite Hfu.
    - subst us. rewrite app_nil_r.
      destruct (transferAll_frame (registered s1) s1 q P) as [Hq Hu].
      { done. }
      { apply Hsep1. intros x Hx. rewrite app_nil_r. done. }
      rewrite Hfq, Hq. split; [done|].
      eapply holds_ext; [|exact HP1]. intros x Hx. unfold nextOf.
      by rewrite Hfu, Hu. }
  destruct Hgoal as [Hgi Hgh]. split; [done|]. split; [done|]. split.
  - intros tail Htail. rewrite Htail in Hgh. by apply circular_wraps.
  - intros fuel Hfuel. by apply readList_holds.
Qed.

Lemma transferAll_interleaved qs : forall s q,
  q ∈ qs \/ interleaved (queues s q) = None ->
  interleaved (queues (transferAll qs s) q) = None.
Proof.
  induction qs as [|q' qs IH]; intros s q Hq; simpl.
  - destruct Hq as [Hq|Hq]; [set_solver|done].
  - apply IH. destruct (decide (q' = q)) as [->|Hne].
    + right. destruct (interleaved (queues s q)) as [t|] eqn:Hi.
      * apply transfer_some in Hi as (-> & _). done.
      * by rewrite transfer_none.
    + rewrite transfer_queues_ne by done.
      destruct Hq as [Hq|Hq]; [left; set_solver|by right].
Qed.

(** C7. The merge step is idempotent: a second call in succession changes
    nothing.  After the first call the registry is empty and the side
    channel of every queue that was registered is empty; if every queue with
    a non-empty side channel was registered, every side channel is empty. *)
Theorem C7_merge_step_idempotent s :
  let s1 := finishQueueingConcurrentUpdates s in
  finishQueueingConcurrentUpdates s1 = s1 /\
  concurrentQueues s1 = None /\
  (forall q, q ∈ registered s -> interleaved (queues s1 q) = None) /\
  ((forall q, interleaved (queues s q) <> None -> q ∈ registered s) ->
   forall q, interleaved (queues s1 q) = None).
Proof.
  intros s1.
  destruct (finish_registered s) as (Hq & _ & Hreg). fold s1 in Hq, Hreg.
  split.
  { unfold finishQueueingConcurrentUpdates at 1. by rewrite Hreg. }
  split; [done|]. split.
  - intros q Hin. rewrite Hq. apply transferAll_interleaved. by left.
  - intros Hinv q. rewrite Hq. apply transferAll_interleaved.
    destruct (interleaved (queues s q)) eqn:Hi; [left|by right].
    apply Hinv. by rewrite Hi.
Qed.

End AppendsThenMerge.

(** ** Batching *)

Section Batching.

Import Js UpdateBatching.

Context {Env : Type} `{Collaborators Env}.

Implicit Types (s : BatchState Env) (op : Op Env).

(** The finalize step counts itself and leaves the flag alone, however it
    ends. *)
Lemma finishEventHandler_spec s :
  isInsideEventHandler (snd (finishEventHandler s)) = isInsideEventHandler s /\
  finishEventHandlerCalls (snd (finishEventHandler s))
    = S (finishEventHandlerCalls s).
Proof.
  unfold finishEventHandler. simpl.
  destruct (needsStateRestore (env s)); [|done].
  destruct (flushSyncImpl (env s)) as [[[]|x] e]; [|done].
  by destruct (restoreStateIfNeeded e) as [r e'].
Qed.

Lemma batchedUpdates_inside fn a b s :
  isInsideEventHandler s = true -> batchedUpdates fn a b s = fn a b s.
Proof. intros Hin. unfold batchedUpdates. by rewrite Hin. Qed.

(** Inside a batch no callback reaches the finalize step or clears the
    flag. *)
Lemma run_staysInside op : forall a b, staysInside (run op a b).
Proof.
  induction op as [f|first IH1 second IH2|body IH1 handler IH2|inner IH a' b'];
    intros a b s Hin; simpl.
  - by destruct (f a b (env s)) as [r e].
  - specialize (IH1 a b s Hin).
    destruct (run first a b s) as [[v|x] s1]; simpl in *; [|done].
    destruct IH1 as [Hin1 Hc1]. specialize (IH2 a b s1 Hin1).
    destruct IH2 as [? ?]. split; [done|congruence].
  - specialize (IH1 a b s Hin).
    destruct (run body a b s) as [[v|x] s1]; simpl in *; [done|].
    destruct IH1 as [Hin1 Hc1]. specialize (IH2 a b s1 Hin1).
    destruct IH2 as [? ?]. split; [done|congruence].
  - rewrite batchedUpdates_inside by done. by apply IH.
Qed.

(** The outermost call: the [try] block runs with the flag set, the
    [finally] block clears it and runs the finalize step. *)
Lemma batchedUpdates_outermost fn a b s :
  isInsideEventHandler s = false ->
  let s1 := snd (batchedUpdatesImpl fn a b (assign_isInsideEventHandler s true)) in
  let r1 := fst (batchedUpdatesImpl fn a b (assign_isInsideEventHandler s true)) in
  let s2 := assign_isInsideEventHandler s1 false in
  snd (batchedUpdates fn a b s) = snd (finishEventHandler s2) /\
  fst (batchedUpdates fn a b s) =
    match fst (finishEventHandler s2) with
    | Throw x => Throw x
    | Normal _ => r1
    end.
Proof.
  intros Hout. unfold batchedUpdates. rewrite Hout.
  destruct (batchedUpdatesImpl fn a b (assign_isInsideEventHandler s true))
    as [r1 s1]. simpl.
  by destruct (finishEventHandler (assign_isInsideEventHandler s1 false))
    as [[[]|x] s4].
Qed.

End Batching.

(** ** Update batching with collaborators that may call back *)

Section ReentrantBatchingFacts.

Import Js UpdateBatching.

Context {Env : Type} `{ReentrantBatching.Collaborators Env}.

Implicit Types (s : BatchState Env) (op : Op Env).

Lemma reentrant_batchedUpdates_inside (fn : Callback Env) a b s :
  isInsideEventHandler s = true ->
  ReentrantBatching.batchedUpdates fn a b s = fn a b s.
Proof. intros Hin. unfold ReentrantBatching.batchedUpdates. by rewrite Hin. Qed.

(** Inside a batch no callback reaches the finalize step or clears the
    flag. *)
Lemma reentrant_run_staysInside op :
  forall a b, staysInside (ReentrantBatching.run op a b).
Proof.
  induction op as [f|first IH1 second IH2|body IH1 handler IH2|inner IH a' b'];
    intros a b s Hin; simpl.
  - by destruct (f a b (env s)) as [r e].
  - specialize (IH1 a b s Hin).
    destruct (ReentrantBatching.run first a b s) as [[v|x] s1]; simpl in *;
      [|done].
    destruct IH1 as [Hin1 Hc1]. specialize (IH2 a b s1 Hin1).
    destruct IH2 as [? ?]. split; [done|congruence].
  - specialize (IH1 a b s Hin).
    destruct (ReentrantBatching.run body a b s) as [[v|x] s1]; simpl in *;
      [done|].
    destruct IH1 as [Hin1 Hc1]. specialize (IH2 a b s1 Hin1).
    destruct IH2 as [? ?]. split; [done|congruence].
  - rewrite reentrant_batchedUpdates_inside by done. by apply IH.
Qed.

(** The outermost call is the batching implementation run with the flag
    set, then the flag cleared, then the finalize step; the completion is
    the implementation's unless the finalize step throws. *)
Lemma reentrant_batchedUpdates_outermost (fn : Callback Env) a b s :
  isInsideEventHandler s = false ->
  let inner :=
    ReentrantBatching.batchedUpdatesImpl fn a b
      (assign_isInsideEventHandler s true) in
  let final :=
    ReentrantBatching.finishEventHandler
      (assign_isInsideEventHandler (snd inner) false) in
  snd (ReentrantBatching.batchedUpdates fn a b s) = snd final /\
  fst (ReentrantBatching.batchedUpdates fn a b s) =
    match fst final with
    | Throw x => Throw x
    | Normal _ => fst inner
    end.
Proof.
  intros Hout. unfold ReentrantBatching.batchedUpdates. rewrite Hout.
  destruct (ReentrantBatching.batchedUpdatesImpl fn a b
              (assign_isInsideEventHandler s true)) as [r1 s1]. simpl.
  by destruct (ReentrantBatching.finishEventHandler
                 (assign_isInsideEventHandler s1 false)) as [[[]|x] s4].
Qed.

(** A finalize step whose flush and restore do not call back counts
    itself once and leaves the flag clear, however it ends. *)
Lemma reentrant_finishEventHandler_spec s :
  ReentrantBatching.finalizeDoesNotReenter ->
  isInsideEventHandler s = false ->
  isInsideEventHandler (snd (ReentrantBatching.finishEventHandler s)) = false /\
  finishEventHandlerCalls (snd (ReentrantBatching.finishEventHandler s))
    = S (finishEventHandlerCalls s).
Proof.
  intros [Hflush Hrestore] Hout. unfold ReentrantBatching.finishEventHandler.
  cbv zeta.
  destruct (ReentrantBatching.needsStateRestore _); [|done].
  destruct (Hflush (count_finishEventHandler s) Hout) as [Hf1 Hc1].
  destruct (ReentrantBatching.flushSyncImpl (count_finishEventHandler s))
    as [[[]|x] s1]; simpl in *; [|done].
  destruct (Hrestore s1 Hf1) as [Hf2 Hc2]. split; [done|congruence].
Qed.

(** C6. A [batchedUpdates] call made inside a batch is the call of the
    operation itself, and nothing an operation does inside a batch runs the
    finalize step or clears the flag.  An outermost call is the batching
    implementation run on the operation with the flag set, followed by the
    finalize step run with the flag clear: the operation runs inside the
    batch, and the call ends in the state the finalize step leaves and with
    the completion of the implementation, or with what the finalize step
    threw.  When the call is over, however the operation ended, the flag is
    clear and the finalize step has run exactly once; an operation that throws
    makes the call throw.  The batching implementation is one that touches
    the flag only through its callback, and the flush and the restore of the
    finalize step do not call [batchedUpdates] again. *)
Theorem C6_batching_finalizes_once_outermost :
  ReentrantBatching.implKeepsBatch ->
  ReentrantBatching.finalizeDoesNotReenter ->
  (forall (fn : Callback Env) a b s,
     isInsideEventHandler s = true ->
     ReentrantBatching.batchedUpdates fn a b s = fn a b s) /\
  (forall op a b s,
     isInsideEventHandler s = true ->
     let s' :=
       snd (ReentrantBatching.batchedUpdates (ReentrantBatching.run op) a b s) in
     isInsideEventHandler s' = true /\
     finishEventHandlerCalls s' = finishEventHandlerCalls s) /\
  (forall op a b s,
     isInsideEventHandler s = false ->
     let inner :=
       ReentrantBatching.batchedUpdatesImpl (ReentrantBatching.run op) a b
         (assign_isInsideEventHandler s true) in
     let final :=
       ReentrantBatching.finishEventHandler
         (assign_isInsideEventHandler (snd inner) false) in
     let outer :=
       ReentrantBatching.batchedUpdates (ReentrantBatching.run op) a b s in
     isInsideEventHandler (snd inner) = true /\
     finishEventHandlerCalls (snd inner) = finishEventHandlerCalls s /\
     snd outer = snd final /\
     fst outer = match fst final with
                 | Throw x => Throw x
                 | Normal _ => fst inner
                 end /\
     isInsideEventHandler (snd outer) = false /\
     finishEventHandlerCalls (snd outer) = S (finishEventHandlerCalls s) /\
     (isThrow (fst inner) = true -> isThrow (fst outer) = true)).
Proof.
  intros Himpl Hfinal. split; [|split].
  - intros fn a b s. apply reentrant_batchedUpdates_inside.
  - intros op a b s Hin s'. subst s'.
    rewrite reentrant_batchedUpdates_inside by done.
    by apply reentrant_run_staysInside.
  - intros op a b s Hout inner final outer.
    destruct (Himpl (ReentrantBatching.run op) a b
                (reentrant_run_staysInside op)
                (assign_isInsideEventHandler s true)) as [Hin1 Hc1]; [done|].
    fold inner in Hin1, Hc1. simpl in Hc1.
    destruct (reentrant_batchedUpdates_outermost (ReentrantBatching.run op)
                a b s Hout) as [Hs Hr].
    fold inner in Hs, Hr. fold final in Hs, Hr. fold outer in Hs, Hr.
    destruct (reentrant_finishEventHandler_spec
                (assign_isInsideEventHandler (snd inner) false) Hfinal eq_refl)
      as [Hf Hc].
    fold final in Hf, Hc. simpl in Hc.
    split; [done|]. split; [done|]. split; [done|]. split; [done|].
    rewrite Hs. split; [done|]. split; [by rewrite Hc, Hc1|].
    rewrite Hr. intros Hthrow. by destruct (fst final).
Qed.

End ReentrantBatchingFacts.

(** ** The two models of update batching agree *)

Section BatchingModels.

Import Js UpdateBatching.

Context {Env : Type} (C : UpdateBatching.Collaborators Env).

(** With collaborators that act on their own state alone the finalize
    step and [batchedUpdates] are those of [UpdateBatching]. *)
Lemma finishEventHandler_ofCollaborators (s : BatchState Env) :
  ReentrantBatching.finishEventHandler
    (H := ReentrantBatching.ofCollaborators C) s
  = UpdateBatching.finishEventHandler (H := C) s.
Proof.
  unfold ReentrantBatching.finishEventHandler, UpdateBatching.finishEventHandler.
  simpl. destruct (needsStateRestore (env s)); [|done].
  destruct (flushSyncImpl (env s)) as [[[]|x] e]; simpl; [|done].
  by destruct (restoreStateIfNeeded e) as [r e'].
Qed.

Lemma batchedUpdates_ofCollaborators (fn : Callback Env) a b
    (s : BatchState Env) :
  ReentrantBatching.batchedUpdates
    (H := ReentrantBatching.ofCollaborators C) fn a b s
  = UpdateBatching.batchedUpdates (H := C) fn a b s.
Proof.
  unfold ReentrantBatching.batchedUpdates, UpdateBatching.batchedUpdates.
  destruct (isInsideEventHandler s); [done|]. simpl.
  destruct (batchedUpdatesImpl fn a b (assign_isInsideEventHandler s true))
    as [r s1].
  by rewrite finishEventHandler_ofCollaborators.
Qed.

(** Such collaborators do not call back. *)
Lemma ofCollaborators_doesNotReenter :
  ReentrantBatching.finalizeDoesNotReenter
    (H := ReentrantBatching.ofCollaborators C).
Proof.
  split; intros s Hout; simpl.
  - by destruct (flushSyncImpl (env s)) as [r e].
  - by destruct (restoreStateIfNeeded (env s)) as [r e].
Qed.

End BatchingModels.

(** ** Host context *)

Section HostContextStack.

Import Js HostContext.

Context `{HostConfig}.

Implicit Types (s : StackState) (fiber : FiberRef).

Lemma requiredContext_value v :
  v <> NO_CONTEXT -> requiredContext v = Normal v.
Proof. by destruct v. Qed.

Lemma requiredContext_cases v :
  (v = NO_CONTEXT /\ requiredContext v = Throw noContextError) \/
  (v <> NO_CONTEXT /\ requiredContext v = Normal v).
Proof. destruct v; [by left|by right..]. Qed.

(** A pop right after a push undoes it. *)
Lemma pop_push cursor v fiber fiber' s :
  pop cursor fiber' (push cursor v fiber s) = s.
Proof. destruct s, cursor; reflexivity. Qed.

(** What a successful [pushHostContext] leaves: the child context is
    current, whether it was pushed or was there already. *)
Lemma pushHostContext_spec fiber s :
  match requiredContext (current rootInstanceStackCursor s),
        requiredContext (current contextStackCursor s) with
  | Normal rootInstance, Normal context =>
      let next := HostContextV
                    (getChildHostContext context (type_ fiber) rootInstance) in
      fst (pushHostContext fiber s) = Normal tt /\
      current contextStackCursor (snd (pushHostContext fiber s)) = next /\
      (context = next -> snd (pushHostContext fiber s) = s) /\
      (context <> next ->
       snd (pushHostContext fiber s) =
         push contextStackCursor next fiber
           (push contextFiberStackCursor (FiberV fiber) fiber s))
  | _, _ => pushHostContext fiber s = (Throw noContextError, s)
  end.
Proof.
  unfold pushHostContext.
  destruct (requiredContext_cases (current rootInstanceStackCursor s))
    as [[_ ->]|[_ ->]]; [done|].
  destruct (requiredContext_cases (current contextStackCursor s))
    as [[_ ->]|[_ ->]]; [done|].
  cbv zeta. case_decide; repeat split; done.
Qed.

(** C8. Reading the host context or the root container while the cursor
    holds [NO_CONTEXT], as it does before any push, throws the "no context"
    error; once a push has put a value in the cursor the read returns that
    value. *)
Theorem C8_read_without_context_throws :
  (forall s, current contextStackCursor s = NO_CONTEXT ->
             getHostContext s = Throw noContextError) /\
  (forall s, current rootInstanceStackCursor s = NO_CONTEXT ->
             getRootHostContainer s = Throw noContextError) /\
  getHostContext initialState = Throw noContextError /\
  getRootHostContainer initialState = Throw noContextError /\
  (forall s, current contextStackCursor s <> NO_CONTEXT ->
             getHostContext s = Normal (current contextStackCursor s)) /\
  (forall s, current rootInstanceStackCursor s <> NO_CONTEXT ->
             getRootHostContainer s = Normal (current rootInstanceStackCursor s)) /\
  (forall fiber root s s',
     pushHostContainer fiber root s = (Normal tt, s') ->
     getRootHostContainer s' = Normal (ContainerV root) /\
     exists context, getRootHostContext root = Normal context /\
                     getHostContext s' = Normal (HostContextV context)) /\
  (forall fiber s s',
     pushHostContext fiber s = (Normal tt, s') ->
     exists context, getHostContext s' = Normal (HostContextV context)).
Proof.
  unfold getHostContext, getRootHostContainer.
  split; [by intros s ->|]. split; [by intros s ->|].
  split; [done|]. split; [done|].
  split; [intros s; apply requiredContext_value|].
  split; [intros s; apply requiredContext_value|].
  split.
  - intros fiber root s s'. unfold pushHostContainer.
    destruct (getRootHostContext root) as [context|e]; [|done].
    intros [= <-]. split; [by destruct s|].
    exists context. split; [done|]. by destruct s.
  - intros fiber s s' Hpush.
    pose proof (pushHostContext_spec fiber s) as Hspec.
    destruct (requiredContext (current rootInstanceStackCursor s));
      [|by rewrite Hpush in Hspec].
    destruct (requiredContext (current contextStackCursor s));
      [|by rewrite Hpush in Hspec].
    destruct Hspec as (_ & Hcur & _). rewrite Hpush in Hcur.
    cbn [snd] in Hcur. rewrite Hcur. by eexists.
Qed.

(** C10 (as amended). When the provider cursor does not already hold the
    node, [pushHostContext] followed by [popHostContext] for the node gives
    back the state before the push, all cursors and the stack.  A push that
    finds the child context equal to the current one changes nothing, and
    the pop changes nothing either when the provider cursor does not hold the
    node.  A push of a different context puts the node in the provider cursor
    and the child context in the context cursor, and the pop, seeing the
    node, undoes both pushes: in this case the state is restored in every
    state, also when the provider cursor held the node before. *)
Theorem C10_push_then_pop_restores fiber s :
  let s1 := snd (pushHostContext fiber s) in
  (current contextFiberStackCursor s <> FiberV fiber ->
   popHostContext fiber s1 = s) /\
  (forall rootInstance context,
     requiredContext (current rootInstanceStackCursor s) = Normal rootInstance ->
     requiredContext (current contextStackCursor s) = Normal context ->
     let next := HostContextV
                   (getChildHostContext context (type_ fiber) rootInstance) in
     (context = next ->
      s1 = s /\
      (current contextFiberStackCursor s <> FiberV fiber ->
       popHostContext fiber s = s)) /\
     (context <> next ->
      s1 = push contextStackCursor next fiber
             (push contextFiberStackCursor (FiberV fiber) fiber s) /\
      current contextFiberStackCursor s1 = FiberV fiber /\
      current contextStackCursor s1 = next /\
      popHostContext fiber s1 = s)).
Proof.
  intros s1.
  assert (Hnoop : current contextFiberStackCursor s <> FiberV fiber ->
                  popHostContext fiber s = s).
  { intros Hprovider. unfold popHostContext. by rewrite decide_False. }
  pose proof (pushHostContext_spec fiber s) as Hspec. fold s1 in Hspec.
  destruct (requiredContext (current rootInstanceStackCursor s))
    as [rootInstance|e] eqn:Hr.
  2:{ assert (s1 = s) as -> by (subst s1; by rewrite Hspec).
      split; [done|]. intros ? ? [=]. }
  destruct (requiredContext (current contextStackCursor s))
    as [context|e] eqn:Hc.
  2:{ assert (s1 = s) as -> by (subst s1; by rewrite Hspec).
      split; [done|]. intros ? ? _ [=]. }
  destruct Hspec as (_ & Hcur & Hsame & Hdiff).
  set (next := HostContextV
                 (getChildHostContext context (type_ fiber) rootInstance)) in *.
  destruct (decide (context = next)) as [Heq|Hne].
  - rewrite (Hsame Heq). split; [done|].
    intros ? ? [= <-] [= <-]. cbv zeta. fold next.
    split; [done|]. intros Hne. by destruct Hne.
  - assert (Hfiber : current contextFiberStackCursor s1 = FiberV fiber).
    { rewrite (Hdiff Hne). by destruct s. }
    assert (Hpop : popHostContext fiber s1 = s).
    { unfold popHostContext. rewrite decide_True by done.
      rewrite (Hdiff Hne). by rewrite !pop_push. }
    split; [done|].
    intros ? ? [= <-] [= <-]. cbv zeta. fold next.
    split; [intros Heq; by destruct Hne|].
    intros _. split; [exact (Hdiff Hne)|]. by split.
Qed.

End HostContextStack.

(** ** The theorems at concrete states *)

Section Witnesses.

Import Js Lanes ConcurrentUpdates Examples.

Lemma circular_singleton s t : nextOf s t = Some t -> circular s t [t].
Proof.
  intros Ht. apply (circular_snoc s t []).
  split; [apply NoDup_singleton|]. by split.
Qed.

(** C1 at [appendedState]: the record 2 of the side list follows the
    record 1 of the pending list. *)
Lemma C1_witness :
  pending (queues mergedState 0%nat) = Some 2%nat /\
  circular mergedState 2%nat ([1%nat] ++ [2%nat]).
Proof.
  destruct (C1_merge_splices_side_after_pending appendedState [0%nat] 0%nat
              2%nat [1%nat] [2%nat]) as (_ & _ & Hp & Hc & _).
  - reflexivity.
  - by left.
  - reflexivity.
  - by apply circular_singleton.
  - by apply circular_singleton.
  - intros x ->%list_elem_of_singleton [=]%list_elem_of_singleton.
  - intros q' ->%list_elem_of_singleton Hne. done.
  - by split.
Defined.

(** The claim C2 as it is stated fails at [appendedState]: the list read
    after the merge is the pending record 1 and then the appended record 2,
    not the appended record followed by the pending one. *)
Lemma C2_counterexample :
  appends (H := reactConstants) 0%nat [2%nat] pendingState appendedState /\
  readList 2 pendingState (pending (queues pendingState 0%nat))
    = Some [1%nat] /\
  readList 2 mergedState (pending (queues mergedState 0%nat))
    = Some [1%nat; 2%nat] /\
  readList 2 mergedState (pending (queues mergedState 0%nat))
    <> Some ([2%nat] ++ [1%nat]).
Proof.
  split; [|split; [reflexivity|split; [reflexivity|]]].
  - apply (appends_cons 0%nat 2%nat [] pendingState appendedState appendedState).
    + apply (append_bailout 0%nat 2%nat pendingState 1%nat 1).
    + apply appends_nil.
  - intros [=].
Qed.

(** C2 as amended, at two appends on [pendingState]. *)
Lemma C2_witness :
  let s1 :=
    enqueueConcurrentHookUpdateAndEagerlyBailout appendedState 1%nat 0%nat
      3%nat 1 in
  let s' := finishQueueingConcurrentUpdates s1 in
  readList 3 s' (pending (queues s' 0%nat)) = Some [1%nat; 2%nat; 3%nat].
Proof.
  intros s1 s'.
  destruct (C2_merge_reads_pending_then_appended (H := reactConstants)
              pendingState 0%nat [2%nat; 3%nat] [1%nat] s1)
    as (_ & _ & _ & Hread).
  - reflexivity.
  - by apply circular_singleton.
  - apply NoDup_cons. split; [|apply NoDup_singleton].
    by intros [=]%list_elem_of_singleton.
  - intros x ->%list_elem_of_singleton
      [[=]|[=]%list_elem_of_singleton]%elem_of_cons.
  - intros q' Hq'. by apply elem_of_nil in Hq'.
  - apply (appends_cons 0%nat 2%nat [3%nat] pendingState appendedState s1).
    + apply (append_bailout 0%nat 2%nat pendingState 1%nat 1).
    + apply (appends_cons 0%nat 3%nat [] appendedState s1 s1).
      * apply (append_bailout 0%nat 3%nat appendedState 1%nat 1).
      * apply appends_nil.
  - apply Hread. simpl. lia.
Defined.

Lemma returnPath_child s :
  fibers s = treeFibers -> returnPath s 1%nat [2%nat].
Proof. intros Hf. simpl. by rewrite Hf. Qed.

(** C3 at [sideState]: the record 2 (called [B]) enqueued after [A]. *)
Lemma C3_witness :
  exists s' root,
    enqueueConcurrentHookUpdate (H := reactConstants) 1 sideState 1%nat 0%nat
      2%nat 1 = Some (s', root) /\
    nextOf s' 2%nat = Some 1%nat /\ nextOf s' 1%nat = Some 2%nat /\
    interleaved (queues s' 0%nat) = Some 2%nat.
Proof.
  destruct (C3_enqueue_splices_into_side_channel (H := reactConstants)
              sideState 1%nat 0%nat 2%nat 1 [2%nat] 1%nat
              (returnPath_child sideState eq_refl) (le_n 1)
              enqueueConcurrentHookUpdate (or_introl eq_refl))
    as (s' & root & Hrun & _ & _ & HAB).
  exists s', root. split; [exact Hrun|]. by apply (HAB 1%nat).
Defined.

Lemma isInt32_1 : Js.isInt32 1.
Proof. unfold Js.isInt32. simpl. lia. Qed.

(** C4 at the two-node tree: lane 1 propagated from the child. *)
Lemma C4_witness :
  exists s' root,
    markUpdateLaneFromFiberToRoot (H := reactConstants) 1 pendingState 1%nat 1
      = Some (s', root) /\
    includesLanes (lanes (fibers s' 1%nat)) 1 /\
    includesLanes (childLanes (fibers s' 2%nat)) 1 /\
    childLanes (fibers s' 1%nat) = 0 /\
    lanes (fibers s' 2%nat) = 0.
Proof.
  destruct (C4_propagation_marks_lanes (H := reactConstants) pendingState
              1%nat 1 [2%nat] 1%nat isInt32_1
              (returnPath_child pendingState eq_refl) (le_n 1))
    as (s' & root & Hrun & Hsrc & _ & Hpath & Hframe).
  exists s', root. split; [exact Hrun|]. split; [exact Hsrc|].
  assert (Hin : 2%nat ∈ [2%nat]) by by left.
  split; [exact (proj1 (Hpath 2%nat Hin))|].
  destruct Hframe as [Hchild Hlanes].
  - intros x a [->|[->|Hx]%elem_of_cons]%elem_of_cons Ha;
      [vm_compute in Ha; discriminate Ha..|].
    by apply elem_of_nil in Hx.
  - split; [exact Hchild|]. exact (Hlanes 2%nat Hin).
Defined.

(** The scenario of two updates, lane [0b01] on the child and lane [0b10]
    on its parent, in this order, on the same queue. *)
Example two_update_scenario :
  match enqueueConcurrentHookUpdate (H := reactConstants) 1 pendingState
          1%nat 0%nat 2%nat 1 with
  | Some (s1, root1) =>
      match enqueueConcurrentHookUpdate (H := reactConstants) 1 s1
              2%nat 0%nat 3%nat 2 with
      | Some (s2, root2) =>
          root1 = Some 9%nat /\ root2 = Some 9%nat /\
          lanes (fibers s2 1%nat) = 1 /\ lanes (fibers s2 2%nat) = 2 /\
          childLanes (fibers s2 2%nat) = 1 /\ childLanes (fibers s2 1%nat) = 0
      | None => False
      end
  | None => False
  end.
Proof. vm_compute. repeat split. Qed.

(** C5 at the two-node tree: the path from the child ends at the host
    root, whose root container is 9. *)
Lemma C5_witness :
  exists s' root,
    markUpdateLaneFromFiberToRoot (H := reactConstants) 1 pendingState 1%nat 1
      = Some (s', root) /\
    root = Some 9%nat /\ stateNodeReads s' = [2%nat].
Proof.
  destruct (C5_root_container_or_absent (H := reactConstants) pendingState
              1%nat 1 [2%nat] 1%nat
              (returnPath_child pendingState eq_refl) (le_n 1))
    as (s' & root & Hrun & Hroot & _).
  exists s', root. split; [exact Hrun|]. by apply Hroot.
Defined.

(** C9 at [sideState]. *)
Lemma C9_witness :
  let sb :=
    enqueueConcurrentHookUpdateAndEagerlyBailout sideState 1%nat 0%nat 2%nat 1 in
  sameFibers sideState sb /\
  exists s' root,
    enqueueConcurrentHookUpdate (H := reactConstants) 1 sideState 1%nat 0%nat
      2%nat 1 = Some (s', root) /\
    sameQueues s' sb.
Proof.
  intros sb.
  destruct (C9_eager_bailout_skips_propagation (H := reactConstants)
              sideState 1%nat 0%nat 2%nat 1 [2%nat] 1%nat
              (returnPath_child sideState eq_refl) (le_n 1))
    as (Hf & _ & _ & _ & Hhook).
  by split.
Defined.

Lemma default_implKeepsBatch :
  UpdateBatching.implKeepsBatch (H := defaultCollaborators).
Proof. intros fn a b Hfn. apply Hfn. Qed.

Lemma defaultReentrant_implKeepsBatch :
  ReentrantBatching.implKeepsBatch (H := defaultReentrant).
Proof. intros fn a b Hfn. apply Hfn. Qed.

(** C6 at an outermost call whose operation nests a call and throws. *)
Lemma C6_witness :
  ReentrantBatching.batchedUpdates (H := defaultReentrant)
    (ReentrantBatching.run (H := defaultReentrant) throwingOp)
    UpdateBatching.undefined UpdateBatching.undefined idleBatchState
  = (Throw (Error "boom"%string),
     UpdateBatching.mkBatchState false 1%nat 0%nat).
Proof.
  destruct (C6_batching_finalizes_once_outermost (H := defaultReentrant)
              defaultReentrant_implKeepsBatch
              (ofCollaborators_doesNotReenter defaultCollaborators))
    as (_ & _ & Hout).
  destruct (Hout throwingOp UpdateBatching.undefined UpdateBatching.undefined
              idleBatchState eq_refl) as (_ & _ & Hs & Hr & _).
  rewrite (surjective_pairing (ReentrantBatching.batchedUpdates _ _ _ _)).
  rewrite Hs, Hr. reflexivity.
Defined.

(** The claim C10 as it is stated fails at [rootPushed] for fiber 1, which
    the provider cursor already holds: the push is skipped, the pop acts, and
    the context cursor is left at [NO_CONTEXT]. *)
Lemma C10_counterexample :
  let s1 := snd (HostContext.pushHostContext (H := constConfig) 1%nat rootPushed) in
  fst (HostContext.pushHostContext (H := constConfig) 1%nat rootPushed)
    = Normal tt /\
  s1 = rootPushed /\
  HostContext.current HostContext.contextStackCursor rootPushed
    = HostContext.HostContextV 0%nat /\
  HostContext.current HostContext.contextStackCursor
    (HostContext.popHostContext 1%nat s1) = HostContext.NO_CONTEXT /\
  HostContext.popHostContext 1%nat s1 <> rootPushed.
Proof. repeat split. intros [=]. Qed.

(** C10 as amended, at [rootPushed]: for fiber 2, whose push is skipped,
    and for fiber 1, which the provider cursor holds already, on a host whose
    child context differs from the root context. *)
Lemma C10_witness :
  HostContext.popHostContext 2%nat
    (snd (HostContext.pushHostContext (H := constConfig) 2%nat rootPushed))
  = rootPushed /\
  HostContext.popHostContext 1%nat
    (snd (HostContext.pushHostContext (H := MoreExamples.nestingConfig) 1%nat
            rootPushed))
  = rootPushed.
Proof.
  split.
  - apply (C10_push_then_pop_restores (H := constConfig) 2%nat rootPushed).
    intros [=].
  - destruct (C10_push_then_pop_restores (H := MoreExamples.nestingConfig)
                1%nat rootPushed) as [_ Hcases].
    destruct (Hcases (HostContext.ContainerV 7%nat)
                (HostContext.HostContextV 0%nat) eq_refl eq_refl)
      as [_ Hdiff].
    apply Hdiff. intros [=].
Defined.

End Witnesses.

(** ** Invariants of the concurrent-updates module *)

Section UpdateCallsFacts.

Import Lanes ConcurrentUpdates UpdateCalls.

Context `{Constants}.

Implicit Types (s : State) (q : QueueRef).

Lemma registered_sameQueues s s' :
  sameQueues s s' -> registered s' = registered s.
Proof. intros (_ & _ & Hr). unfold registered. by rewrite Hr. Qed.

Lemma registryCovers_sameQueues s s' :
  sameQueues s s' -> registryCovers s -> registryCovers s'.
Proof.
  intros Hsame Hc q. rewrite (registered_sameQueues _ _ Hsame).
  destruct Hsame as (_ & -> & _). apply Hc.
Qed.

Lemma registryCovers_push s q :
  registryCovers s -> registryCovers (pushConcurrentUpdateQueue s q).
Proof.
  intros Hc q'.
  pose proof (pushConcurrentUpdateQueue_spec s q) as (_ & _ & -> & _ & _ & Hr).
  unfold registered at 1. rewrite Hr. intros Hq'%Hc. set_solver.
Qed.

Lemma registryCovers_bailout s fiber q u lane :
  registryCovers s ->
  registryCovers (enqueueConcurrentHookUpdateAndEagerlyBailout s fiber q u lane).
Proof.
  intros Hc q'.
  pose proof (bailout_spec s fiber q u lane) as (_ & _ & _ & Hq & Hne & Hcase).
  assert (Hreg : forall x, x = q \/ x ∈ registered s ->
            x ∈ registered
                  (enqueueConcurrentHookUpdateAndEagerlyBailout s fiber q u lane)).
  { intros x Hx. unfold registered at 1.
    destruct (interleaved (queues s q)) as [i|] eqn:Hi;
      destruct Hcase as (-> & _).
    - destruct Hx as [->|Hx]; [|done]. apply Hc. by rewrite Hi.
    - set_solver. }
  destruct (decide (q = q')) as [<-|Hqq].
  - intros _. apply Hreg. by left.
  - rewrite Hne by done. intros Hq'%Hc. apply Hreg. by right.
Qed.

Lemma registryCovers_finish s :
  registryCovers s ->
  forall q, interleaved (queues (finishQueueingConcurrentUpdates s) q) = None.
Proof.
  intros Hc q. destruct (finish_registered s) as (-> & _).
  apply transferAll_interleaved.
  destruct (interleaved (queues s q)) eqn:Hi; [left|by right].
  apply Hc. by rewrite Hi.
Qed.

Lemma call_registryCovers s s' :
  call s s' -> registryCovers s -> registryCovers s'.
Proof.
  intros Hcall Hc.
  destruct Hcall as [s q|s|fuel s fiber q u lane s' root Hrun|s fiber q u lane
                    |fuel s fiber q u lane s' root Hrun
                    |fuel s fiber lane s' root Hrun
                    |fuel s fiber lane s' root Hrun].
  - by apply registryCovers_push.
  - intros q Hq. by rewrite registryCovers_finish in Hq.
  - rewrite enqueueConcurrentHookUpdate_unfold in Hrun.
    apply markUpdateLaneFromFiberToRoot_sameQueues in Hrun.
    eapply registryCovers_sameQueues; [done|]. by apply registryCovers_bailout.
  - by apply registryCovers_bailout.
  - rewrite enqueueConcurrentClassUpdate_unfold in Hrun.
    apply markUpdateLaneFromFiberToRoot_sameQueues in Hrun.
    eapply registryCovers_sameQueues; [done|]. by apply registryCovers_bailout.
  - apply markUpdateLaneFromFiberToRoot_sameQueues in Hrun.
    by eapply registryCovers_sameQueues.
  - apply markUpdateLaneFromFiberToRoot_sameQueues in Hrun.
    by eapply registryCovers_sameQueues.
Qed.

(** X1. Every exported function keeps the registry complete: if every
    queue with a non-empty side channel is registered, this is still so after
    any sequence of calls, and a merge step then leaves every side channel
    empty. *)
Theorem registry_stays_complete s s' :
  registryCovers s -> calls s s' ->
  registryCovers s' /\
  forall q, interleaved (queues (finishQueueingConcurrentUpdates s') q) = None.
Proof.
  intros Hc Hcalls.
  assert (Hc' : registryCovers s').
  { induction Hcalls as [s|s s1 s2 Hcall _ IH]; [done|].
    apply IH. by eapply call_registryCovers. }
  split; [done|]. by apply registryCovers_finish.
Qed.

(** *** Lanes are 32-bit values *)

Lemma isInt32_toInt32 z : Js.isInt32 (Js.toInt32 z).
Proof.
  unfold Js.isInt32, Js.toInt32.
  pose proof (Z.mod_pos_bound (z + 2 ^ 31) (2 ^ 32)). lia.
Qed.

Lemma isInt32_shiftr z :
  Js.isInt32 z <-> Z.shiftr z 31 = 0 \/ Z.shiftr z 31 = -1.
Proof.
  unfold Js.isInt32. rewrite Z.shiftr_div_pow2 by lia.
  change (2 ^ 31) with 2147483648.
  pose proof (Z.div_mod z 2147483648).
  pose proof (Z.mod_pos_bound z 2147483648). lia.
Qed.

Lemma isInt32_lor a b :
  Js.isInt32 a -> Js.isInt32 b -> Js.isInt32 (Z.lor a b).
Proof.
  rewrite !isInt32_shiftr, Z.shiftr_lor.
  intros [-> | ->] [-> | ->]; auto.
Qed.

Lemma isInt32_mergeLanes a b : Js.isInt32 (mergeLanes a b).
Proof. apply isInt32_lor; apply isInt32_toInt32. Qed.

Lemma mergeLanes_idem c lane :
  mergeLanes (mergeLanes c lane) lane = mergeLanes c lane.
Proof.
  unfold mergeLanes at 1. unfold Js.bitor.
  rewrite (toInt32_id (mergeLanes c lane)) by apply isInt32_mergeLanes.
  unfold mergeLanes, Js.bitor.
  rewrite <- Z.lor_assoc. by rewrite Z.lor_diag.
Qed.

Lemma mergeLanes_includes_old a lane :
  Js.isInt32 a -> includesLanes (mergeLanes a lane) a.
Proof.
  intros Ha. unfold includesLanes, mergeLanes, Js.bitor.
  rewrite (toInt32_id a Ha). apply Z.bits_inj'. intros n _.
  rewrite Z.land_spec, Z.lor_spec.
  destruct (Z.testbit a n); [done | by rewrite andb_false_r].
Qed.

Lemma merged_fixed lane v : merged lane v -> mergeLanes v lane = v.
Proof. intros [c ->]. apply mergeLanes_idem. Qed.

Lemma grown_refl lane a : grown lane a a.
Proof. by left. Qed.

Lemma grown_merge lane a : grown lane a (mergeLanes a lane).
Proof. by right. Qed.

Lemma grown_trans lane a b c :
  grown lane a b -> grown lane b c -> grown lane a c.
Proof.
  intros [->| ->] [->| ->]; [by left|by right|by right|].
  right. apply mergeLanes_idem.
Qed.

Lemma grown_includes lane old v :
  Js.isInt32 old -> grown lane old v -> includesLanes v old.
Proof.
  intros Hold [->| ->]; [|by apply mergeLanes_includes_old].
  unfold includesLanes. apply Z.land_diag.
Qed.

(** *** The state before the loop *)

(** [markUpdateLaneFromFiberToRoot] is the loop run from a state that
    differs from the given one in the [lanes] of the source and its alternate
    and in at most one warning. *)
Lemma markUpdateLaneFromFiberToRoot_prelude fuel s src lane :
  exists s3,
    markUpdateLaneFromFiberToRoot fuel s src lane =
      match walkParentPath fuel s3 src lane src (return_ (fibers s3 src)) with
      | None => None
      | Some (s4, node) =>
          if decide (tag (fibers s4 node) = HostRoot)
          then Some (fst (read_stateNode s4 node),
                     Some (snd (read_stateNode s4 node)))
          else Some (s4, None)
      end /\
    sameQueues s s3 /\ stateNodeReads s3 = stateNodeReads s /\
    (forall x, shape (fibers s3 x) = shape (fibers s x) /\
               childLanes (fibers s3 x) = childLanes (fibers s x) /\
               grown lane (lanes (fibers s x)) (lanes (fibers s3 x))) /\
    warnings s3 =
      (if __DEV__ && unmounted s src then [src] else []) ++ warnings s.
Proof.
  unfold markUpdateLaneFromFiberToRoot.
  set (s1 := assign_lanes s src (mergeLanes (lanes (fibers s src)) lane)).
  assert (Halt : alternate (fibers s1 src) = alternate (fibers s src)).
  { unfold s1. by rewrite fibers_assign_lanes, decide_True. }
  rewrite Halt.
  set (s2 := match alternate (fibers s src) with
             | Some a => assign_lanes s1 a (mergeLanes (lanes (fibers s1 a)) lane)
             | None => s1
             end).
  set (s3 := if __DEV__ then _ else s2).
  exists s3. split; [done|].
  assert (H2 : forall x, shape (fibers s2 x) = shape (fibers s x) /\
               childLanes (fibers s2 x) = childLanes (fibers s x) /\
               grown lane (lanes (fibers s x)) (lanes (fibers s2 x))).
  { intros x. unfold s2, s1. destruct (alternate (fibers s src)) as [a|].
    - rewrite !fibers_assign_lanes.
      repeat case_decide; subst; simpl; repeat split;
        try apply grown_refl; try apply grown_merge.
      right. apply mergeLanes_idem.
    - rewrite fibers_assign_lanes.
      case_decide; subst; simpl; repeat split;
        try apply grown_refl; try apply grown_merge. }
  assert (Hflags : notYetMounted s2 src = notYetMounted s src).
  { unfold notYetMounted. destruct (H2 src) as [Hsh _].
    unfold shape in Hsh. injection Hsh as _ _ -> _ _. done. }
  assert (Hq2 : sameQueues s s2 /\ stateNodeReads s2 = stateNodeReads s /\
                warnings s2 = warnings s).
  { unfold s2. by destruct (alternate (fibers s src)). }
  destruct Hq2 as (Hq2 & Hr2 & Hw2).
  unfold s3, unmounted. rewrite <- Hflags.
  destruct __DEV__; simpl; [|done].
  destruct (alternate (fibers s src)) as [a|] eqn:Ha.
  - rewrite bool_decide_false by done. done.
  - rewrite bool_decide_true by done. simpl.
    destruct (notYetMounted s2 src); simpl; [|done].
    destruct Hq2 as (? & ? & ?). by repeat split; try apply H2; simpl; f_equal.
Qed.

(** Whenever lane propagation returns, it is the loop that returned. *)
Lemma markUpdateLaneFromFiberToRoot_inv fuel s src lane s' root :
  markUpdateLaneFromFiberToRoot fuel s src lane = Some (s', root) ->
  exists s3 s4 node,
    walkParentPath fuel s3 src lane src (return_ (fibers s3 src))
      = Some (s4, node) /\
    fibers s' = fibers s4 /\ warnings s' = warnings s4 /\
    sameQueues s s3 /\ stateNodeReads s3 = stateNodeReads s /\
    (forall x, shape (fibers s3 x) = shape (fibers s x) /\
               childLanes (fibers s3 x) = childLanes (fibers s x) /\
               grown lane (lanes (fibers s x)) (lanes (fibers s3 x))) /\
    warnings s3 =
      (if __DEV__ && unmounted s src then [src] else []) ++ warnings s.
Proof.
  intros Hrun.
  destruct (markUpdateLaneFromFiberToRoot_prelude fuel s src lane)
    as (s3 & Heq & Hq & Hr & H3 & Hw).
  rewrite Heq in Hrun.
  destruct (walkParentPath fuel s3 src lane src _) as [[s4 node]|] eqn:Hwalk;
    [|done].
  exists s3, s4, node. split; [done|].
  destruct (decide (tag (fibers s4 node) = HostRoot));
    injection Hrun as <- _; (split; [done|]); (split; [done|]); auto.
Qed.

(** One round of the loop: the warning it may emit and the growth of
    [childLanes]. *)
Lemma markParent_effects s src lane p :
  warnings (markParent s src lane p) =
    (if __DEV__ && unmounted s p then [src] else []) ++ warnings s /\
  forall x, grown lane (childLanes (fibers s x))
                  (childLanes (fibers (markParent s src lane p) x)).
Proof.
  unfold markParent.
  set (s1 := assign_childLanes s p (mergeLanes (childLanes (fibers s p)) lane)).
  assert (Halt : alternate (fibers s1 p) = alternate (fibers s p)).
  { unfold s1. by rewrite fibers_assign_childLanes, decide_True. }
  assert (Hflags : notYetMounted s1 p = notYetMounted s p).
  { unfold notYetMounted, s1. by rewrite fibers_assign_childLanes, decide_True. }
  rewrite Halt. unfold unmounted. rewrite <- Hflags.
  destruct (alternate (fibers s p)) as [a|] eqn:Ha.
  - rewrite bool_decide_false by done. rewrite andb_false_r. split; [done|].
    intros x. unfold s1. rewrite !fibers_assign_childLanes.
    repeat case_decide; subst; simpl;
      try apply grown_refl; try apply grown_merge.
    right. apply mergeLanes_idem.
  - rewrite bool_decide_true by done. split.
    + destruct __DEV__; simpl; [|done]. by destruct (notYetMounted s1 p).
    + intros x.
      assert (Hf : fibers (if __DEV__
                           then if notYetMounted s1 p
                                then warnAboutUpdateOnNotYetMountedFiberInDEV s1 src
                                else s1
                           else s1) = fibers s1).
      { destruct __DEV__; [destruct (notYetMounted s1 p)|]; done. }
      rewrite Hf. unfold s1. rewrite fibers_assign_childLanes.
      case_decide; subst; simpl; [apply grown_merge|apply grown_refl].
Qed.

Lemma walkParentPath_grown src lane : forall fuel s node parent s' n,
  walkParentPath fuel s src lane node parent = Some (s', n) ->
  forall x, lanes (fibers s' x) = lanes (fibers s x) /\
            grown lane (childLanes (fibers s x)) (childLanes (fibers s' x)).
Proof.
  induction fuel as [|fuel IH]; intros s node [p|] s' n; simpl;
    try (intros [= <- _] x; split; [done|apply grown_refl]); try done.
  intros Hrun x. destruct (IH _ _ _ _ _ Hrun x) as [-> Hg].
  pose proof (markParent_spec s src lane p) as (_ & _ & Hshape & _).
  destruct (Hshape x) as [_ ->]. split; [done|].
  eapply grown_trans; [|exact Hg]. apply markParent_effects.
Qed.

(** X2. Lane propagation never clears a lane: whenever it returns, the
    [lanes] and the [childLanes] of every fiber are what they were or what
    they were merged with the lane; a 32-bit value is included in the value
    after. *)
Theorem propagation_never_clears_lanes s src lane path fuel :
  returnPath s src path -> (length path <= fuel)%nat ->
  exists s' root,
    markUpdateLaneFromFiberToRoot fuel s src lane = Some (s', root) /\
    forall x,
      grown lane (lanes (fibers s x)) (lanes (fibers s' x)) /\
      grown lane (childLanes (fibers s x)) (childLanes (fibers s' x)) /\
      (Js.isInt32 (lanes (fibers s x)) ->
       includesLanes (lanes (fibers s' x)) (lanes (fibers s x))) /\
      (Js.isInt32 (childLanes (fibers s x)) ->
       includesLanes (childLanes (fibers s' x)) (childLanes (fibers s x))).
Proof.
  intros Hpath Hfuel.
  destruct (markUpdateLaneFromFiberToRoot_spec s src lane path fuel)
    as (s' & Hrun & _); [done..|].
  exists s'. eexists. split; [exact Hrun|]. intros x.
  destruct (markUpdateLaneFromFiberToRoot_inv _ _ _ _ _ _ Hrun)
    as (s3 & s4 & node & Hw & Hf & _ & _ & _ & H3 & _).
  pose proof (walkParentPath_grown _ _ _ _ _ _ _ _ Hw x) as [Hl Hc].
  rewrite Hf. destruct (H3 x) as (_ & Hc3 & Hl3).
  rewrite Hc3 in Hc. rewrite <- Hl in Hl3.
  split; [done|]. split; [done|]. split; intros Hint; by eapply grown_includes.
Qed.

Lemma Fiber_ext (f g : Fiber) :
  shape f = shape g -> lanes f = lanes g -> childLanes f = childLanes g ->
  f = g.
Proof.
  destruct f, g. unfold shape. simpl. intros [= -> -> -> -> ->] -> ->. done.
Qed.

(** X3. Lane propagation is idempotent: propagating the same lane from the
    same node a second time returns the same root and leaves every fiber as
    the first propagation left it. *)
Theorem propagation_idempotent s src lane path fuel :
  returnPath s src path -> (length path <= fuel)%nat ->
  exists s1 s2 root,
    markUpdateLaneFromFiberToRoot fuel s src lane = Some (s1, root) /\
    markUpdateLaneFromFiberToRoot fuel s1 src lane = Some (s2, root) /\
    forall x, fibers s2 x = fibers s1 x.
Proof.
  intros Hpath Hfuel.
  destruct (markUpdateLaneFromFiberToRoot_spec s src lane path fuel)
    as (s1 & Hrun1 & _ & _ & Hshape1 & _ & Hsrc1 & Halt1 & _ & Hin1);
    [done..|].
  assert (Hfield : forall x, tag (fibers s1 x) = tag (fibers s x) /\
            stateNode (fibers s1 x) = stateNode (fibers s x) /\
            alternate (fibers s1 x) = alternate (fibers s x) /\
            return_ (fibers s1 x) = return_ (fibers s x)).
  { intros x. pose proof (Hshape1 x) as Hx. unfold shape in Hx.
    injection Hx. auto. }
  assert (Hpath1 : returnPath s1 src path).
  { eapply returnPath_ext; [|done]. intros x. apply Hfield. }
  destruct (markUpdateLaneFromFiberToRoot_spec s1 src lane path fuel)
    as (s2 & Hrun2 & _ & _ & Hshape2 & Hlanes2 & _ & _ & Hchild2 & _);
    [done..|].
  exists s1, s2. eexists. split; [exact Hrun1|]. split.
  { rewrite Hrun2. by destruct (Hfield (lastNode src path)) as (-> & -> & _). }
  destruct (markUpdateLaneFromFiberToRoot_inv _ _ _ _ _ _ Hrun2)
    as (s3 & s4 & node & Hw & Hf & _ & _ & _ & H3 & _).
  intros x. apply Fiber_ext; [apply Hshape2|..].
  - destruct (decide (x = src)) as [->|Hx].
    { pose proof (walkParentPath_grown _ _ _ _ _ _ _ _ Hw src) as [Hl _].
      destruct (H3 src) as (_ & _ & Hg). rewrite Hf, Hl.
      destruct Hg as [->| ->]; [done|]. by apply merged_fixed. }
    destruct (decide (alternate (fibers s src) = Some x)) as [Ha|Ha].
    { pose proof (walkParentPath_grown _ _ _ _ _ _ _ _ Hw x) as [Hl _].
      destruct (H3 x) as (_ & _ & Hg). rewrite Hf, Hl.
      destruct Hg as [->| ->]; [done|]. by apply merged_fixed, Halt1. }
    apply Hlanes2; [done|]. by destruct (Hfield src) as (_ & _ & -> & _).
  - pose proof (walkParentPath_grown _ _ _ _ _ _ _ _ Hw x) as [_ Hg].
    destruct (H3 x) as (_ & Hc3 & _). rewrite Hc3, <- Hf in Hg.
    destruct Hg as [->|Hg]; [done|]. rewrite Hg.
    destruct (decide (x ∈ path)) as [Hx|Hx].
    { apply merged_fixed. by apply Hin1. }
    destruct (decide (Exists (fun p => alternate (fibers s p) = Some x) path))
      as [Hex|Hnex].
    { apply Exists_exists in Hex as (p & Hp & Ha).
      apply merged_fixed. by apply (Hin1 p Hp). }
    rewrite <- Hg. apply Hchild2; [done|]. intros p Hp Ha.
    apply Hnex, Exists_exists. exists p. split; [done|].
    by destruct (Hfield p) as (_ & _ & <- & _).
Qed.

(** X4. The entry points that only propagate a lane,
    [enqueueConcurrentRenderForLane] and
    [unsafe_markUpdateLaneFromFiberToRoot], return what lane propagation
    returns and leave every update record, every queue and the registry as
    they were: every pending list and every side list reads as before. *)
Theorem render_for_lane_leaves_queues s fiber lane path fuel :
  returnPath s fiber path -> (length path <= fuel)%nat ->
  exists s' root,
    enqueueConcurrentRenderForLane fuel s fiber lane = Some (s', root) /\
    unsafe_markUpdateLaneFromFiberToRoot fuel s fiber lane = Some (s', root) /\
    sameQueues s s' /\
    forall q l,
      (holds s (pending (queues s q)) l ->
       holds s' (pending (queues s' q)) l) /\
      (holds s (interleaved (queues s q)) l ->
       holds s' (interleaved (queues s' q)) l).
Proof.
  intros Hpath Hfuel.
  destruct (markUpdateLaneFromFiberToRoot_spec s fiber lane path fuel)
    as (s' & Hrun & Hsame & _); [done..|].
  exists s'. eexists. split; [exact Hrun|]. split; [exact Hrun|].
  split; [done|]. intros q l.
  destruct Hsame as (Hu & Hq & Hr). rewrite Hq.
  split; apply holds_ext; intros x _; unfold nextOf; by rewrite Hu.
Qed.

Lemma unmounted_ext s s' x :
  shape (fibers s' x) = shape (fibers s x) -> unmounted s' x = unmounted s x.
Proof.
  unfold unmounted, notYetMounted, shape. by intros [= _ _ -> -> _].
Qed.

Lemma filter_none {A} (P : A -> Prop) `{!forall x, Decision (P x)}
    (l : list A) :
  (forall x, x ∈ l -> ~ P x) -> filter P l = [].
Proof.
  induction l as [|y l IH]; intros Hl; [done|].
  rewrite filter_cons, decide_False by (apply Hl; by left).
  apply IH. intros x Hx. apply Hl. by right.
Qed.

Lemma replicate_snoc_app {A} (k : nat) (x : A) (w : list A) :
  replicate k x ++ x :: w = replicate (S k) x ++ w.
Proof. induction k as [|k IH]; simpl; [done|]. by rewrite IH. Qed.

(** The warnings of the loop: one for each node of the path that has no
    alternate and is not yet mounted. *)
Lemma walkParentPath_warnings src lane : forall path fuel s node s' n,
  returnPath s node path ->
  walkParentPath fuel s src lane node (return_ (fibers s node))
    = Some (s', n) ->
  warnings s' =
    replicate (if __DEV__
               then length (filter (fun x => unmounted s x = true) path)
               else O) src ++ warnings s.
Proof.
  induction path as [|p path IH]; intros fuel s node s' n Hpath.
  - simpl in Hpath. rewrite Hpath.
    destruct fuel; simpl; intros [= <- _]; by destruct __DEV__.
  - destruct Hpath as [Hret Hpath]. rewrite Hret.
    destruct fuel as [|fuel]; [done|]. simpl. intros Hrun.
    pose proof (markParent_spec s src lane p) as (_ & _ & Hshape & _).
    pose proof (markParent_effects s src lane p) as [Hw _].
    set (s1 := markParent s src lane p) in *.
    assert (Hsh : forall x, shape (fibers s1 x) = shape (fibers s x))
      by (intros x; apply Hshape).
    rewrite (IH fuel s1 p s' n); [|eapply returnPath_ext; [|done]|done].
    2:{ intros x. specialize (Hsh x). unfold shape in Hsh. by injection Hsh. }
    rewrite Hw.
    rewrite (list_filter_iff (fun x => unmounted s1 x = true)
               (fun x => unmounted s x = true)).
    2:{ intros x. by rewrite (unmounted_ext s s1 x (Hsh x)). }
    destruct __DEV__; simpl; [|done].
    rewrite filter_cons. cbv beta.
    destruct (unmounted s p); case_decide; try done; simpl.
    apply replicate_snoc_app.
Qed.

(** X5. The warnings of a lane propagation: in a development build one
    warning for the source node and for each ancestor that has no alternate
    and carries a [Placement] or [Hydrating] flag, each naming the source
    node; in a production build none. *)
Theorem propagation_warns_of_source_only s src lane path fuel :
  returnPath s src path -> (length path <= fuel)%nat ->
  exists s' root,
    markUpdateLaneFromFiberToRoot fuel s src lane = Some (s', root) /\
    warnings s' = replicate (warningCount s src path) src ++ warnings s /\
    (__DEV__ = false -> warnings s' = warnings s) /\
    ((forall x, x ∈ src :: path -> unmounted s x = false) ->
     warnings s' = warnings s).
Proof.
  intros Hpath Hfuel.
  destruct (markUpdateLaneFromFiberToRoot_spec s src lane path fuel)
    as (s' & Hrun & _); [done..|].
  exists s'. eexists. split; [exact Hrun|].
  destruct (markUpdateLaneFromFiberToRoot_inv _ _ _ _ _ _ Hrun)
    as (s3 & s4 & node & Hw & _ & Hws & _ & _ & H3 & Hw3).
  assert (Hsh : forall x, shape (fibers s3 x) = shape (fibers s x))
    by (intros x; apply H3).
  assert (Hcount :
    warnings s' = replicate (warningCount s src path) src ++ warnings s).
  { rewrite Hws.
    rewrite (walkParentPath_warnings src lane path fuel s3 src s4 node); [|
      eapply returnPath_ext; [|done]; intros x; specialize (Hsh x);
      unfold shape in Hsh; by injection Hsh|done].
    rewrite Hw3. unfold warningCount.
    rewrite (list_filter_iff (fun x => unmounted s3 x = true)
               (fun x => unmounted s x = true)).
    2:{ intros x. by rewrite (unmounted_ext s s3 x (Hsh x)). }
    destruct __DEV__; simpl; [|done].
    rewrite filter_cons. cbv beta.
    destruct (unmounted s src); simpl; [apply replicate_snoc_app|done]. }
  split; [done|]. split.
  - intros Hdev. rewrite Hcount. unfold warningCount. by rewrite Hdev.
  - intros Hall. rewrite Hcount. unfold warningCount.
    destruct __DEV__; [|done].
    assert (Hnil : filter (fun x => unmounted s x = true) (src :: path) = []).
    { apply filter_none. intros x Hx. by rewrite Hall. }
    by rewrite Hnil.
Qed.

Lemma ancestor_ext s s' n : forall node,
  (forall x, return_ (fibers s' x) = return_ (fibers s x)) ->
  ancestor s' n node = ancestor s n node.
Proof.
  induction n as [|n IH]; intros node Hr; simpl; [done|].
  rewrite Hr. destruct (return_ (fibers s node)); auto.
Qed.

(** On a cycle of [return] pointers the loop uses up any fuel. *)
Lemma walkParentPath_cycle src lane : forall fuel s node p,
  returnCycle s p ->
  walkParentPath fuel s src lane node (Some p) = None.
Proof.
  induction fuel as [|fuel IH]; intros s node p Hcycle; simpl; [done|].
  pose proof (markParent_spec s src lane p) as (_ & _ & Hshape & _).
  set (s1 := markParent s src lane p) in *.
  assert (Hret : forall x, return_ (fibers s1 x) = return_ (fibers s x)).
  { intros x. destruct (Hshape x) as [Hx _]. unfold shape in Hx.
    by injection Hx. }
  rewrite Hret. pose proof (Hcycle 1%nat) as H1. simpl in H1.
  destruct (return_ (fibers s p)) as [p'|] eqn:Hp; [|by destruct H1].
  apply IH. intros n. rewrite (ancestor_ext s s1) by done.
  specialize (Hcycle (S n)). simpl in Hcycle. by rewrite Hp in Hcycle.
Qed.

(** X6. When following [return] from the source node never ends (the
    pointers form a cycle), lane propagation does not return: no number of
    rounds of its loop is enough. *)
Theorem propagation_diverges_on_cycle s src lane :
  returnCycle s src ->
  forall fuel, markUpdateLaneFromFiberToRoot fuel s src lane = None.
Proof.
  intros Hcycle fuel.
  destruct (markUpdateLaneFromFiberToRoot_prelude fuel s src lane)
    as (s3 & -> & _ & _ & H3 & _).
  assert (Hret : forall x, return_ (fibers s3 x) = return_ (fibers s x)).
  { intros x. destruct (H3 x) as [Hx _]. unfold shape in Hx.
    by injection Hx. }
  rewrite Hret. pose proof (Hcycle 1%nat) as H1. simpl in H1.
  destruct (return_ (fibers s src)) as [p|] eqn:Hp; [|by destruct H1].
  rewrite walkParentPath_cycle; [done|]. intros n.
  rewrite (ancestor_ext s s3) by done.
  specialize (Hcycle (S n)). simpl in Hcycle. by rewrite Hp in Hcycle.
Qed.

Lemma transfer_relinks s q :
  warnings (transferInterleaved s q) = warnings s /\
  stateNodeReads (transferInterleaved s q) = stateNodeReads s /\
  forall x, lane (updates (transferInterleaved s q) x) = lane (updates s x) /\
            payload (updates (transferInterleaved s q) x)
              = payload (updates s x).
Proof.
  destruct (interleaved (queues s q)) as [lastI|] eqn:Hi;
    [|by rewrite transfer_none].
  pose proof (transfer_some _ _ _ Hi) as (_ & _ & Hu & _ & _ & Hw & Hr).
  split; [done|]. split; [done|]. intros x. rewrite Hu.
  destruct (pending (queues s q)) as [lastP|]; [|done].
  unfold assign_next; simpl. unfold insert, fn_insert.
  repeat case_decide; by subst.
Qed.

Lemma transferAll_relinks qs : forall s,
  fibers (transferAll qs s) = fibers s /\
  warnings (transferAll qs s) = warnings s /\
  stateNodeReads (transferAll qs s) = stateNodeReads s /\
  (forall x, lane (updates (transferAll qs s) x) = lane (updates s x) /\
             payload (updates (transferAll qs s) x) = payload (updates s x)) /\
  (forall q, q ∉ qs \/ interleaved (queues s q) = None ->
             queues (transferAll qs s) q = queues s q) /\
  (forall x, (forall q t, q ∈ qs -> tailOf s q t -> t <> x) ->
             updates (transferAll qs s) x = updates s x).
Proof.
  induction qs as [|q' qs IH]; intros s; simpl.
  { by repeat split. }
  destruct (IH (transferInterleaved s q')) as (IHf & IHw & IHr & IHl & IHq & IHu).
  pose proof (transfer_relinks s q') as (Hw & Hr & Hl).
  split; [by rewrite IHf, transfer_fibers|].
  split; [congruence|]. split; [congruence|]. split.
  { intros x. destruct (IHl x) as [-> ->]. apply Hl. }
  split.
  - intros q Hq. destruct (decide (q' = q)) as [->|Hne].
    + destruct Hq as [Hq|Hq]; [set_solver|].
      rewrite IHq; [by rewrite transfer_none|].
      right. by rewrite transfer_none.
    + rewrite IHq, transfer_queues_ne; [done..|].
      rewrite transfer_queues_ne by done.
      destruct Hq as [Hq|Hq]; [left; set_solver|by right].
  - intros x Hx. rewrite IHu.
    + apply transfer_updates_frame. intros t Ht. apply (Hx q'); [by left|done].
    + intros q t Hq Ht%transfer_tailOf. apply (Hx q); [by right|done].
Qed.

(** X7. The merge step only relinks: it changes no fiber, emits no
    warning, and alters no record's lane or payload; a queue that is not
    registered, or whose side channel is empty, keeps its two fields; a record
    that no registered queue points to is untouched. *)
Theorem merge_only_relinks s :
  let s' := finishQueueingConcurrentUpdates s in
  fibers s' = fibers s /\ warnings s' = warnings s /\
  stateNodeReads s' = stateNodeReads s /\
  (forall x, lane (updates s' x) = lane (updates s x) /\
             payload (updates s' x) = payload (updates s x)) /\
  (forall q, q ∉ registered s \/ interleaved (queues s q) = None ->
             queues s' q = queues s q) /\
  (forall x, (forall q t, q ∈ registered s -> tailOf s q t -> t <> x) ->
             updates s' x = updates s x).
Proof.
  intros s'. subst s'. unfold finishQueueingConcurrentUpdates, registered.
  destruct (concurrentQueues s) as [qs|]; [|by repeat split].
  simpl. apply transferAll_relinks.
Qed.

Lemma transferInterleaved_registry s X q :
  transferInterleaved (assign_concurrentQueues s X) q =
  assign_concurrentQueues (transferInterleaved s q) X.
Proof.
  unfold transferInterleaved. simpl.
  destruct (interleaved (queues s q)); [|done]. simpl.
  by destruct (pending _).
Qed.

Lemma transferAll_registry qs : forall s X,
  transferAll qs (assign_concurrentQueues s X) =
  assign_concurrentQueues (transferAll qs s) X.
Proof.
  induction qs as [|q qs IH]; intros s X; simpl; [done|].
  by rewrite transferInterleaved_registry, IH.
Qed.

(** X8. Registering a queue that is already registered is harmless: the
    merge step gives the same state with the duplicate as without it. *)
Theorem duplicate_registration_is_harmless s q :
  q ∈ registered s ->
  finishQueueingConcurrentUpdates (pushConcurrentUpdateQueue s q) =
  finishQueueingConcurrentUpdates s.
Proof.
  unfold registered, finishQueueingConcurrentUpdates, pushConcurrentUpdateQueue.
  destruct (concurrentQueues s) as [qs|] eqn:Hreg; [|by intros ?%elem_of_nil].
  intros Hin. simpl. rewrite transferAll_registry, transferAll_app. simpl.
  rewrite transfer_none; [done|].
  apply transferAll_interleaved. by left.
Qed.

(** X9. The records of a side channel must be fresh: enqueueing the record
    that is already the tail of the side channel makes it point to itself, so
    the side list is then that record alone, whatever it held before. *)
Theorem reenqueued_tail_stands_alone s fiber q u lane :
  interleaved (queues s q) = Some u ->
  let s' := enqueueConcurrentHookUpdateAndEagerlyBailout s fiber q u lane in
  interleaved (queues s' q) = Some u /\
  nextOf s' u = Some u /\
  concurrentQueues s' = concurrentQueues s /\
  forall fuel, (1 <= fuel)%nat ->
               readList fuel s' (interleaved (queues s' q)) = Some [u].
Proof.
  intros Hi s'.
  pose proof (bailout_spec s fiber q u lane) as (_ & _ & _ & Hq & _ & Hcase).
  fold s' in Hq, Hcase. rewrite Hi in Hcase.
  destruct Hcase as (Hreg & Hnext & _).
  assert (Hu : nextOf s' u = Some u) by by rewrite Hnext, decide_True.
  rewrite Hq. simpl. split; [done|]. split; [done|]. split; [done|].
  intros fuel Hfuel. apply readList_circular; [|done].
  apply (circular_snoc s' u []). split; [apply NoDup_singleton|]. by split.
Qed.

End UpdateCallsFacts.

(** ** More on batching *)

Section BatchingFacts.

Import Js UpdateBatching.

Context {Env : Type} `{Collaborators Env}.

Implicit Types (s : BatchState Env) (op : Op Env).

(** X10. Whatever a callback does and however it ends, a callback that
    starts outside a batch ends outside a batch, and the number of finalize
    steps run so far never goes down. *)
Theorem callbacks_end_outside_a_batch :
  implKeepsBatch ->
  forall op a b s,
    isInsideEventHandler s = false ->
    isInsideEventHandler (snd (run op a b s)) = false /\
    (finishEventHandlerCalls s <= finishEventHandlerCalls (snd (run op a b s)))%nat.
Proof.
  intros Himpl.
  induction op as [f|first IH1 second IH2|body IH1 handler IH2|inner IH a' b'];
    intros a b s Hout; simpl.
  - by destruct (f a b (env s)) as [r e].
  - specialize (IH1 a b s Hout).
    destruct (run first a b s) as [[v|x] s1]; simpl in *; [|done].
    destruct IH1 as [Hout1 Hc1]. specialize (IH2 a b s1 Hout1).
    destruct IH2 as [? ?]. split; [done|lia].
  - specialize (IH1 a b s Hout).
    destruct (run body a b s) as [[v|x] s1]; simpl in *; [done|].
    destruct IH1 as [Hout1 Hc1]. specialize (IH2 a b s1 Hout1).
    destruct IH2 as [? ?]. split; [done|lia].
  - destruct (batchedUpdates_outermost (run inner) a' b' s Hout) as [-> _].
    destruct (Himpl (run inner) a' b' (run_staysInside inner)
                (assign_isInsideEventHandler s true)) as [_ Hc]; [done|].
    destruct (finishEventHandler_spec
                (assign_isInsideEventHandler
                   (snd (batchedUpdatesImpl (run inner) a' b'
                           (assign_isInsideEventHandler s true))) false))
      as [-> ->].
    simpl in *. split; [done|lia].
Qed.

(** X11. When no controlled component waits for a restore after the
    operation, an outermost [batchedUpdates] call is transparent: it returns
    or throws what the batching implementation did and leaves the
    collaborators as the implementation left them; neither [flushSyncImpl]
    nor [restoreStateIfNeeded] runs. *)
Theorem batchedUpdates_transparent_when_nothing_pending fn a b s :
  isInsideEventHandler s = false ->
  let inner := batchedUpdatesImpl fn a b (assign_isInsideEventHandler s true) in
  needsStateRestore (env (snd inner)) = false ->
  batchedUpdates fn a b s =
    (fst inner,
     mkBatchState false (S (finishEventHandlerCalls (snd inner)))
       (env (snd inner))).
Proof.
  intros Hout inner Hneeds. unfold batchedUpdates. rewrite Hout.
  fold inner. destruct inner as [r1 s1]. simpl in *.
  unfold finishEventHandler. simpl. by rewrite Hneeds.
Qed.

(** X12. When a controlled component waits for a restore, the finalize
    step of an outermost call flushes first and restores after.  If the flush
    throws, the restore is skipped and the call throws what the flush threw,
    whatever the operation returned or threw; if the restore throws, the call
    throws that; otherwise the call ends as the operation did. *)
Theorem finalize_flushes_then_restores fn a b s :
  isInsideEventHandler s = false ->
  let inner := batchedUpdatesImpl fn a b (assign_isInsideEventHandler s true) in
  let count := S (finishEventHandlerCalls (snd inner)) in
  needsStateRestore (env (snd inner)) = true ->
  (forall x e,
     flushSyncImpl (env (snd inner)) = (Throw x, e) ->
     batchedUpdates fn a b s = (Throw x, mkBatchState false count e)) /\
  (forall e r e',
     flushSyncImpl (env (snd inner)) = (Normal tt, e) ->
     restoreStateIfNeeded e = (r, e') ->
     batchedUpdates fn a b s =
       (match r with
        | Throw x => Throw x
        | Normal _ => fst inner
        end, mkBatchState false count e')).
Proof.
  intros Hout inner count Hneeds. subst count.
  unfold batchedUpdates. rewrite Hout. fold inner.
  destruct inner as [r1 s1]. simpl in *.
  unfold finishEventHandler. simpl. rewrite Hneeds. split.
  - intros x e ->. done.
  - intros e r e' -> ->. by destruct r.
Qed.

(** X13. With the default batching implementation
    [function(fn, bookkeeping) { return fn(bookkeeping); }] an outermost call
    never shows the operation its second argument: the call is the same for
    every [b], the operation being run as [fn(a, undefined)]; a call made
    inside a batch passes [b] on. *)
Theorem default_implementation_drops_second_argument fn a s :
  batchedUpdatesImpl = default_batchedUpdatesImpl ->
  (isInsideEventHandler s = false ->
   forall b, batchedUpdates fn a b s = batchedUpdates fn a undefined s) /\
  (isInsideEventHandler s = false ->
   forall b,
     fst (batchedUpdatesImpl fn a b (assign_isInsideEventHandler s true))
       = fst (fn a undefined (assign_isInsideEventHandler s true))) /\
  (isInsideEventHandler s = true ->
   forall b, batchedUpdates fn a b s = fn a b s).
Proof.
  intros Himpl. split; [|split].
  - intros Hout b. unfold batchedUpdates. rewrite Hout, Himpl. done.
  - intros _ b. by rewrite Himpl.
  - intros Hin b. by apply batchedUpdates_inside.
Qed.

End BatchingFacts.

(** ** More on the host context stack *)

Section HostContextFacts.

Import Js HostContext HostContextPaths.

Context `{HostConfig}.

Implicit Types (s : StackState) (fiber : FiberRef).

Lemma popHostContainer_pushHostContainer fiber root s :
  popHostContainer fiber (snd (pushHostContainer fiber root s)) = s.
Proof.
  unfold pushHostContainer, popHostContainer.
  destruct (getRootHostContext root) as [context|e]; by destruct s.
Qed.

(** X14. [popHostContainer] undoes [pushHostContainer] in every state,
    whether [getRootHostContext] returned or threw: the push leaves three
    entries on the stack either way, and the pop gives back the three cursors
    and the stack as they were. *)
Theorem popHostContainer_undoes_pushHostContainer fiber root s :
  popHostContainer fiber (snd (pushHostContainer fiber root s)) = s /\
  length (valueStack (snd (pushHostContainer fiber root s)))
    = (3 + length (valueStack s))%nat.
Proof.
  split; [apply popHostContainer_pushHostContainer|].
  unfold pushHostContainer.
  destruct (getRootHostContext root) as [context|e]; by destruct s.
Qed.

(** X15. A [pushHostContainer] whose [getRootHostContext] throws passes
    the exception on and leaves the stack ready to unwind: the new container
    is readable, the host context is not (reading it, or pushing a child
    context, throws the "no context" error and changes nothing), and
    [popHostContainer] gives back the state before the push. *)
Theorem failed_pushHostContainer_unwinds fiber root s e :
  getRootHostContext root = Throw e ->
  let s' := snd (pushHostContainer fiber root s) in
  fst (pushHostContainer fiber root s) = Throw e /\
  getRootHostContainer s' = Normal (ContainerV root) /\
  getHostContext s' = Throw noContextError /\
  (forall fiber', pushHostContext fiber' s' = (Throw noContextError, s')) /\
  popHostContainer fiber s' = s.
Proof.
  intros He s'. subst s'. unfold pushHostContainer. rewrite He. simpl.
  split; [done|]. split; [by destruct s|]. split; [by destruct s|].
  split; [|by destruct s].
  intros fiber'. unfold pushHostContext. by destruct s.
Qed.

(** X16. Before any container is pushed, and whenever one of the two
    cursors it reads holds [NO_CONTEXT], [pushHostContext] throws the
    "no context" error and changes nothing. *)
Theorem pushHostContext_needs_a_context fiber :
  pushHostContext fiber initialState = (Throw noContextError, initialState) /\
  forall s,
    current rootInstanceStackCursor s = NO_CONTEXT \/
    current contextStackCursor s = NO_CONTEXT ->
    pushHostContext fiber s = (Throw noContextError, s).
Proof.
  split; [done|]. intros s Hs.
  pose proof (pushHostContext_spec fiber s) as Hspec.
  destruct (requiredContext_cases (current rootInstanceStackCursor s))
    as [[_ Hr]|[Hr Hr']]; rewrite ?Hr, ?Hr' in Hspec; [done|].
  destruct (requiredContext_cases (current contextStackCursor s))
    as [[_ Hc]|[Hc Hc']]; rewrite ?Hc, ?Hc' in Hspec; [done|].
  by destruct Hs.
Qed.

(** X17. A [pushHostContext] that finds both cursors set returns normally,
    makes the child context computed by [getChildHostContext] the current one,
    leaves the root container cursor alone, and puts no entry or two entries
    on the stack. *)
Theorem pushHostContext_sets_child_context fiber s :
  current rootInstanceStackCursor s <> NO_CONTEXT ->
  current contextStackCursor s <> NO_CONTEXT ->
  let next := getChildHostContext (current contextStackCursor s) (type_ fiber)
                (current rootInstanceStackCursor s) in
  let s' := snd (pushHostContext fiber s) in
  fst (pushHostContext fiber s) = Normal tt /\
  getHostContext s' = Normal (HostContextV next) /\
  getRootHostContainer s' = getRootHostContainer s /\
  (length (valueStack s') = length (valueStack s) \/
   length (valueStack s') = (2 + length (valueStack s))%nat).
Proof.
  intros Hr Hc next s'.
  pose proof (pushHostContext_spec fiber s) as Hspec.
  rewrite (requiredContext_value _ Hr), (requiredContext_value _ Hc) in Hspec.
  fold next s' in Hspec. destruct Hspec as (Hok & Hcur & Hsame & Hdiff).
  split; [done|]. unfold getHostContext, getRootHostContainer.
  rewrite Hcur. split; [done|].
  destruct (decide (current contextStackCursor s = HostContextV next))
    as [Heq|Hne].
  - rewrite (Hsame Heq). split; [done|by left].
  - rewrite (Hdiff Hne). split; [by destruct s|]. right. by destruct s.
Qed.

(** A pop after the push for the same fiber gives back the state, when
    the provider cursor did not hold the fiber. *)
Lemma popHostContext_pushHostContext fiber s :
  current contextFiberStackCursor s <> FiberV fiber ->
  popHostContext fiber (snd (pushHostContext fiber s)) = s /\
  (current contextFiberStackCursor (snd (pushHostContext fiber s))
     = current contextFiberStackCursor s \/
   current contextFiberStackCursor (snd (pushHostContext fiber s))
     = FiberV fiber).
Proof.
  intros Hprovider.
  assert (Hnoop : popHostContext fiber s = s).
  { unfold popHostContext. by rewrite decide_False. }
  pose proof (pushHostContext_spec fiber s) as Hspec.
  destruct (requiredContext (current rootInstanceStackCursor s))
    as [rootInstance|e]; [|rewrite Hspec; auto].
  destruct (requiredContext (current contextStackCursor s))
    as [context|e]; [|rewrite Hspec; auto].
  destruct Hspec as (_ & _ & Hsame & Hdiff).
  destruct (decide (context = HostContextV
              (getChildHostContext context (type_ fiber) rootInstance)))
    as [Heq|Hne].
  - rewrite (Hsame Heq). auto.
  - rewrite (Hdiff Hne). split; [|right; by destruct s].
    unfold popHostContext. rewrite decide_True by by destruct s.
    by rewrite !pop_push.
Qed.

Lemma popPath_pushPath path : forall s,
  NoDup path ->
  (forall f, f ∈ path -> current contextFiberStackCursor s <> FiberV f) ->
  popPath path (pushPath path s) = s.
Proof.
  induction path as [|fiber path IH]; intros s Hnd Hprov; simpl; [done|].
  apply NoDup_cons in Hnd as [Hnotin Hnd].
  destruct (popHostContext_pushHostContext fiber s) as [Hpop Hcur].
  { apply Hprov. by left. }
  rewrite IH; [done..|].
  intros f Hf. destruct Hcur as [-> | ->].
  - apply Hprov. by right.
  - intros [= ->]. done.
Qed.

(** X18. Pushes and pops that mirror a traversal restore the stack: after
    [pushHostContainer] for a root and [pushHostContext] for distinct fibers
    below it, outermost first, the pops for the same fibers, innermost first,
    followed by [popHostContainer] give back the state before the first
    push, whichever of the pushes were skipped. *)
Theorem traversal_pushes_and_pops_balance rootFiber root path s :
  NoDup (rootFiber :: path) ->
  popHostContainer rootFiber
    (popPath path (pushPath path (snd (pushHostContainer rootFiber root s))))
  = s.
Proof.
  intros [Hnotin Hnd]%NoDup_cons.
  rewrite popPath_pushPath; [apply popHostContainer_pushHostContainer|done|].
  intros f Hf. unfold pushHostContainer.
  destruct (getRootHostContext root); destruct s; simpl; intros [= ->]; done.
Qed.

End HostContextFacts.

(** ** The simple event plugin *)

Section SimpleEventPluginFacts.

Import Js SimpleEventPlugin.

Local Open Scope string_scope.

Context `{PluginEnv}.

Implicit Types (q : list DispatchEntry) (dom : DOMEventName)
  (ne : NativeEvent).

(** The React event type the [switch] chooses is the renamed DOM name. *)
Lemma chooseConstructor_type dom ne c t :
  chooseConstructor dom ne = Some (c, t) -> t = renamed dom.
Proof.
  unfold renamed.
  destruct (String.eqb dom "focusin") eqn:Hin.
  { apply String.eqb_eq in Hin as ->. cbn. by intros [= _ <-]. }
  destruct (String.eqb dom "focusout") eqn:Hout.
  { apply String.eqb_eq in Hout as ->. cbn. by intros [= _ <-]. }
  unfold chooseConstructor, oneOf. simpl existsb. rewrite Hin, Hout. simpl.
  repeat match goal with
         | |- context [if ?b then _ else _] => destruct b
         end; by intros [= _ <-].
Qed.

(** X19. Events the plugin filters out leave the dispatch queue as it was:
    a DOM event that has no React name, a [keypress] whose char code is 0 (a
    function key), and a [click] of the right mouse button (button 2). *)
Theorem filtered_events_dispatch_nothing
    q dom targetInst ne nativeEventTarget eventSystemFlags targetContainer :
  topLevelEventsToReactNames dom = None \/
  (dom = "keypress" /\ getEventCharCode ne = 0) \/
  (dom = "click" /\ button ne = Some 2) ->
  extractEvents q dom targetInst ne nativeEventTarget eventSystemFlags
    targetContainer = q.
Proof.
  unfold extractEvents.
  intros [-> | [[-> Hcode] | [-> Hbutton]]]; [done| |].
  - destruct (topLevelEventsToReactNames "keypress"); [|done].
    unfold chooseConstructor. cbn. by rewrite Hcode.
  - destruct (topLevelEventsToReactNames "click"); [|done].
    unfold chooseConstructor. cbn. by rewrite Hbutton.
Qed.

(** X20. [extractEvents] only ever appends, and at most one entry: the
    queue it leaves is the queue it was given, or that queue followed by one
    entry whose listeners are not empty and whose event carries the React name
    of the DOM event, the React event type ([focus] for [focusin], [blur] for
    [focusout], the DOM name otherwise), no target instance, and the native
    event and its target as given. *)
Theorem extractEvents_appends_at_most_one
    q dom targetInst ne nativeEventTarget eventSystemFlags targetContainer :
  let q' := extractEvents q dom targetInst ne nativeEventTarget
              eventSystemFlags targetContainer in
  q' = q \/
  exists name c ls,
    topLevelEventsToReactNames dom = Some name /\ ls <> [] /\
    q' = (q ++ [mkDispatchEntry
                  (mkSyntheticEvent c name (renamed dom) None ne
                     nativeEventTarget) ls])%list.
Proof.
  unfold extractEvents.
  destruct (topLevelEventsToReactNames dom) as [name|]; [|by left].
  destruct (chooseConstructor dom ne) as [[c t]|] eqn:Hc; [|by left].
  apply chooseConstructor_type in Hc as ->. cbv zeta.
  destruct (enableCreateEventHandleAPI && _).
  - destruct (accumulateEventHandleNonManagedNodeListeners _ _ _) as [|l ls];
      [by left|].
    right. by exists name, c, (l :: ls).
  - destruct (accumulateSinglePhaseListeners _ _ _ _ _ _) as [|l ls];
      [by left|].
    right. by exists name, c, (l :: ls).
Qed.

End SimpleEventPluginFacts.

(** ** Hook effect tags *)

Section HookEffectTagsFacts.

Import Js HookEffectTags.

Lemma bitand_bitor_distr a b f :
  bitand (bitor a b) f = Z.lor (bitand a f) (bitand b f).
Proof.
  unfold bitand at 1. unfold bitor.
  rewrite (toInt32_id (Z.lor (toInt32 a) (toInt32 b)))
    by (apply isInt32_lor; apply isInt32_toInt32).
  apply Z.land_lor_distr_l.
Qed.

Lemma hookFlags_disjoint a f :
  a ∈ hookFlags -> f ∈ hookFlags ->
  bitand a f = if decide (a = f) then f else NoFlags.
Proof.
  unfold hookFlags. rewrite !elem_of_cons, !elem_of_nil.
  intros [->|[->|[->|[->|[]]]]] [->|[->|[->|[->|[]]]]]; reflexivity.
Qed.

Lemma combine_test flags f :
  (forall x, x ∈ flags -> x ∈ hookFlags) -> f ∈ hookFlags ->
  bitand (combine flags) f = if decide (f ∈ flags) then f else NoFlags.
Proof.
  intros Hflags Hf. induction flags as [|a flags IH].
  - rewrite decide_False by apply not_elem_of_nil.
    unfold hookFlags in Hf. rewrite !elem_of_cons, elem_of_nil in Hf.
    destruct Hf as [->|[->|[->|[->|[]]]]]; reflexivity.
  - change (combine (a :: flags)) with (bitor a (combine flags)).
    rewrite bitand_bitor_distr, IH by (intros x Hx; apply Hflags; by right).
    rewrite (hookFlags_disjoint a f (Hflags a (list_elem_of_here a flags)) Hf).
    assert (Hfz : Z.lor f f = f /\ Z.lor f NoFlags = f /\
                  Z.lor NoFlags f = f /\ Z.lor NoFlags NoFlags = NoFlags).
    { unfold NoFlags. by rewrite Z.lor_diag, Z.lor_0_r, Z.lor_0_l. }
    destruct Hfz as (H1 & H2 & H3 & H4).
    repeat case_decide; subst; rewrite ?H1, ?H2, ?H3, ?H4;
      try done; exfalso; set_solver.
Qed.

(** X21. The four hook effect flags are distinct single bits: in a tag
    made by or-ing any of them together, the test [(tag & flag) === flag]
    holds exactly for the flags that were or-ed in, and [tag & flag] is
    [NoFlags] for the others. *)
Theorem hook_flags_combine_and_test_apart flags f :
  (forall x, x ∈ flags -> x ∈ hookFlags) -> f ∈ hookFlags ->
  (bitand (combine flags) f = f <-> f ∈ flags) /\
  (f ∉ flags -> bitand (combine flags) f = NoFlags).
Proof.
  intros Hflags Hf. rewrite (combine_test flags f Hflags Hf).
  assert (Hnz : f <> NoFlags).
  { unfold hookFlags in Hf. rewrite !elem_of_cons, elem_of_nil in Hf.
    destruct Hf as [->|[->|[->|[->|[]]]]]; done. }
  case_decide; (split; [split|]); done.
Qed.

End HookEffectTagsFacts.

(** ** The further theorems at concrete states *)

Section MoreWitnesses.

Import Js Lanes ConcurrentUpdates UpdateCalls Examples MoreExamples.

Lemma registryCovers_pendingState : registryCovers pendingState.
Proof.
  intros q Hq. exfalso. apply Hq. unfold pendingState. simpl.
  unfold insert, fn_insert. by case_decide.
Qed.

(** X1 at one append on [pendingState]. *)
Lemma registry_stays_complete_witness :
  registryCovers appendedState /\
  interleaved (queues mergedState 0%nat) = None.
Proof.
  destruct (registry_stays_complete (H := reactConstants) pendingState
              appendedState registryCovers_pendingState) as [Hc Hall].
  - apply (calls_cons pendingState appendedState appendedState).
    + apply (call_bailout pendingState 1%nat 0%nat 2%nat 1).
    + apply calls_nil.
  - split; [exact Hc|exact (Hall 0%nat)].
Defined.

Lemma isInt32_0 : Js.isInt32 0.
Proof. unfold Js.isInt32. simpl. lia. Qed.

(** X2 at the two-node tree. *)
Lemma propagation_never_clears_lanes_witness :
  exists s' root,
    markUpdateLaneFromFiberToRoot (H := reactConstants) 1 pendingState 1%nat 1
      = Some (s', root) /\
    includesLanes (childLanes (fibers s' 2%nat))
      (childLanes (fibers pendingState 2%nat)).
Proof.
  destruct (propagation_never_clears_lanes (H := reactConstants) pendingState
              1%nat 1 [2%nat] 1%nat
              (returnPath_child pendingState eq_refl) (le_n 1))
    as (s' & root & Hrun & Hall).
  exists s', root. split; [exact Hrun|].
  apply (Hall 2%nat). exact isInt32_0.
Defined.

(** X3 at the two-node tree. *)
Lemma propagation_idempotent_witness :
  exists s1 s2 root,
    markUpdateLaneFromFiberToRoot (H := reactConstants) 1 pendingState 1%nat 1
      = Some (s1, root) /\
    markUpdateLaneFromFiberToRoot (H := reactConstants) 1 s1 1%nat 1
      = Some (s2, root) /\
    fibers s2 2%nat = fibers s1 2%nat.
Proof.
  destruct (propagation_idempotent (H := reactConstants) pendingState
              1%nat 1 [2%nat] 1%nat
              (returnPath_child pendingState eq_refl) (le_n 1))
    as (s1 & s2 & root & Hrun1 & Hrun2 & Hall).
  exists s1, s2, root. split; [exact Hrun1|]. split; [exact Hrun2|].
  exact (Hall 2%nat).
Defined.

(** X4 at the two-node tree. *)
Lemma render_for_lane_leaves_queues_witness :
  exists s' root,
    enqueueConcurrentRenderForLane (H := reactConstants) 1 pendingState
      1%nat 1 = Some (s', root) /\
    sameQueues pendingState s'.
Proof.
  destruct (render_for_lane_leaves_queues (H := reactConstants) pendingState
              1%nat 1 [2%nat] 1%nat
              (returnPath_child pendingState eq_refl) (le_n 1))
    as (s' & root & Hrun & _ & Hsame & _).
  exists s', root. by split.
Defined.

Lemma returnPath_unmounted : returnPath unmountedState 1%nat [2%nat].
Proof. by split. Qed.

(** X5 at a child that is being placed: one warning, naming the child. *)
Lemma propagation_warns_of_source_only_witness :
  exists s' root,
    markUpdateLaneFromFiberToRoot (H := reactConstants) 1 unmountedState
      1%nat 1 = Some (s', root) /\
    warnings s' = [1%nat].
Proof.
  destruct (propagation_warns_of_source_only (H := reactConstants)
              unmountedState 1%nat 1 [2%nat] 1%nat returnPath_unmounted
              (le_n 1))
    as (s' & root & Hrun & Hw & _).
  exists s', root. split; [exact Hrun|exact Hw].
Defined.

Lemma returnCycle_cycleState : returnCycle cycleState 0%nat.
Proof. intros n. induction n as [|n IH]; [by eexists|exact IH]. Qed.

(** X6 at a fiber that returns to itself. *)
Lemma propagation_diverges_on_cycle_witness :
  markUpdateLaneFromFiberToRoot (H := reactConstants) 7 cycleState 0%nat 1
    = None.
Proof.
  exact (propagation_diverges_on_cycle (H := reactConstants) cycleState
           0%nat 1 returnCycle_cycleState 7%nat).
Defined.

(** X8 at [appendedState], whose registry holds queue 0. *)
Lemma duplicate_registration_is_harmless_witness :
  finishQueueingConcurrentUpdates (pushConcurrentUpdateQueue appendedState 0%nat)
  = finishQueueingConcurrentUpdates appendedState.
Proof.
  apply (duplicate_registration_is_harmless appendedState 0%nat). by left.
Defined.

(** X9 at a side channel of two records: the tail enqueued again. *)
Lemma reenqueued_tail_stands_alone_witness :
  readList 2 twoSideState (interleaved (queues twoSideState 0%nat))
    = Some [1%nat; 2%nat] /\
  let s' :=
    enqueueConcurrentHookUpdateAndEagerlyBailout twoSideState 1%nat 0%nat
      2%nat 1 in
  readList 2 s' (interleaved (queues s' 0%nat)) = Some [2%nat].
Proof.
  split; [reflexivity|]. intros s'.
  destruct (reenqueued_tail_stands_alone twoSideState 1%nat 0%nat 2%nat 1
              eq_refl) as (_ & _ & _ & Hread).
  apply Hread. lia.
Defined.

(** X10 at an operation that nests a call and throws. *)
Lemma callbacks_end_outside_a_batch_witness :
  UpdateBatching.isInsideEventHandler
    (snd (UpdateBatching.run (H := defaultCollaborators) throwingOp
            UpdateBatching.undefined UpdateBatching.undefined idleBatchState))
  = false.
Proof.
  apply (callbacks_end_outside_a_batch (H := defaultCollaborators)
           default_implKeepsBatch throwingOp). reflexivity.
Defined.

(** X11 at a call with nothing to restore. *)
Lemma batchedUpdates_transparent_witness :
  UpdateBatching.batchedUpdates (H := defaultCollaborators)
    (UpdateBatching.run (H := defaultCollaborators) echoOp)
    (UpdateBatching.Num 1) (UpdateBatching.Num 2) idleBatchState
  = (Normal UpdateBatching.undefined,
     UpdateBatching.mkBatchState false 1%nat 0%nat).
Proof.
  exact (batchedUpdates_transparent_when_nothing_pending
           (H := defaultCollaborators)
           (UpdateBatching.run (H := defaultCollaborators) echoOp)
           (UpdateBatching.Num 1) (UpdateBatching.Num 2) idleBatchState
           eq_refl eq_refl).
Defined.

(** X12 at a flush that throws after an operation that returned. *)
Lemma finalize_flushes_then_restores_witness :
  UpdateBatching.batchedUpdates (H := throwingFlush)
    (UpdateBatching.run (H := throwingFlush) echoOp)
    (UpdateBatching.Num 1) (UpdateBatching.Num 2) pendingRestoreState
  = (Throw (Error "flush"%string),
     UpdateBatching.mkBatchState false 1%nat 1%nat).
Proof.
  destruct (finalize_flushes_then_restores (H := throwingFlush)
              (UpdateBatching.run (H := throwingFlush) echoOp)
              (UpdateBatching.Num 1) (UpdateBatching.Num 2)
              pendingRestoreState eq_refl eq_refl) as [Hthrow _].
  exact (Hthrow (Error "flush"%string) 1%nat eq_refl).
Defined.

(** X13 at an operation that returns its second argument. *)
Lemma default_implementation_drops_second_argument_witness :
  UpdateBatching.batchedUpdates (H := defaultCollaborators)
    (UpdateBatching.run (H := defaultCollaborators) echoOp)
    (UpdateBatching.Num 1) (UpdateBatching.Num 2) idleBatchState
  = UpdateBatching.batchedUpdates (H := defaultCollaborators)
      (UpdateBatching.run (H := defaultCollaborators) echoOp)
      (UpdateBatching.Num 1) UpdateBatching.undefined idleBatchState.
Proof.
  destruct (default_implementation_drops_second_argument
              (H := defaultCollaborators)
              (UpdateBatching.run (H := defaultCollaborators) echoOp)
              (UpdateBatching.Num 1) idleBatchState eq_refl) as [Hout _].
  exact (Hout eq_refl (UpdateBatching.Num 2)).
Defined.

(** X15 at a host whose [getRootHostContext] throws. *)
Lemma failed_pushHostContainer_unwinds_witness :
  let s' :=
    snd (HostContext.pushHostContainer (H := failingConfig) 1%nat 7%nat
           HostContext.initialState) in
  HostContext.getHostContext s' = Throw HostContext.noContextError /\
  HostContext.popHostContainer 1%nat s' = HostContext.initialState.
Proof.
  intros s'.
  destruct (failed_pushHostContainer_unwinds (H := failingConfig) 1%nat 7%nat
              HostContext.initialState (Error "host"%string) eq_refl)
    as (_ & _ & Hread & _ & Hpop).
  by split.
Defined.

(** X17 at [rootPushed] for fiber 2. *)
Lemma pushHostContext_sets_child_context_witness :
  HostContext.getHostContext
    (snd (HostContext.pushHostContext (H := nestingConfig) 2%nat rootPushed))
  = Normal (HostContext.HostContextV 2%nat).
Proof.
  destruct (pushHostContext_sets_child_context (H := nestingConfig) 2%nat
              rootPushed) as (_ & Hget & _).
  - intros [=].
  - intros [=].
  - exact Hget.
Defined.

(** X18 at a root and two fibers below it. *)
Lemma traversal_pushes_and_pops_balance_witness :
  HostContext.popHostContainer 1%nat
    (HostContextPaths.popPath [2%nat; 3%nat]
       (HostContextPaths.pushPath (H := nestingConfig) [2%nat; 3%nat]
          (snd (HostContext.pushHostContainer (H := nestingConfig) 1%nat 7%nat
                  HostContext.initialState))))
  = HostContext.initialState.
Proof.
  apply (traversal_pushes_and_pops_balance (H := nestingConfig) 1%nat 7%nat
           [2%nat; 3%nat] HostContext.initialState).
  repeat (apply NoDup_cons; split; [set_solver|]). apply NoDup_nil_2.
Defined.

(** X19 at a click of the right button. *)
Lemma filtered_events_dispatch_nothing_witness :
  SimpleEventPlugin.extractEvents (H := domEnv) [] "click"%string
    (Some 5%nat) rightClick None 0 0%nat = [].
Proof.
  apply (filtered_events_dispatch_nothing (H := domEnv) [] "click"%string
           (Some 5%nat) rightClick None 0 0%nat).
  right. right. by split.
Defined.

(** X21 at the tag [HasEffect | Layout]. *)
Lemma hook_flags_witness :
  bitand (HookEffectTags.combine
            [HookEffectTags.HasEffect; HookEffectTags.Layout])
    HookEffectTags.Passive = HookEffectTags.NoFlags.
Proof.
  destruct (hook_flags_combine_and_test_apart
              [HookEffectTags.HasEffect; HookEffectTags.Layout]
              HookEffectTags.Passive) as [_ Hout].
  - intros x Hx. unfold HookEffectTags.hookFlags. set_solver.
  - unfold HookEffectTags.hookFlags. set_solver.
  - apply Hout. intros [[=]|[[=]|[]%elem_of_nil]%elem_of_cons]%elem_of_cons.
Defined.

End MoreWitnesses.
